(** * Pronunciation coach: the text-alignment scoring and feedback engine

    A shallow embedding of the scoring, error-analysis, difficulty and
    feedback functions of the pronunciation coach:

    - [src/utils/phonemeUtils.ts]: [comparePhonemes],
      [calculateStringSimilarity], [levenshteinDistance], [getLetterGrade];
    - [src/agents/ComparisonAgent.ts]: [compareTexts],
      [calculateLengthPenalty], [calculateWordOrderBonus], [analyzeErrors],
      [calculateDifficulty] and its three counters;
    - [src/phrases.ts]: [analyzeDifficulty];
    - [src/agents/FeedbackAgent.ts]: [generateMotivationalMessage].

    Modelling conventions.

    - A JavaScript string is the list of its code units, here [list ascii]:
      the code units 0..255.  On that range [toLowerCase], [trim] and the
      regular-expression classes [\s] and [\w] are as ECMAScript defines
      them; code units above 255 are outside the model.
    - A JavaScript number is an exact rational ([Q]); a value that the code
      rounds with [Math.round] is an integer ([Z]).  [Math.round] rounds to
      the nearest integer, ties towards plus infinity.  Binary
      floating-point rounding error is not modelled.
    - An array is a list; a [for] loop over indices is a fold over
      [seq 0 n] whose body reads the arrays with [nth_error]. *)

From Stdlib Require Import Ascii String.
From Stdlib Require Import List Bool Arith Lia ZArith QArith Qround Qminmax Qabs Lqa.
From Stdlib Require Import Relations.
Import ListNotations.

Set Implicit Arguments.

Close Scope Q_scope.
Open Scope nat_scope.

(** ** JavaScript strings *)

Module JsString.

Definition jsstring := list ascii.

Definition of_string : string -> jsstring := list_ascii_of_string.

Definition code (c : ascii) : nat := nat_of_ascii c.

(** [\s] and the characters removed by [trim]: TAB, LF, VT, FF, CR, SP and
    NBSP are the white space and line terminators below 256. *)
Definition is_space (c : ascii) : bool :=
  match code c with
  | 9 | 10 | 11 | 12 | 13 | 32 | 160 => true
  | _ => false
  end.


(** [String.prototype.toLowerCase], one code unit at a time: A..Z and the
    Latin-1 capitals U+00C0..U+00DE (U+00D7, the multiplication sign,
    excepted) move up by 32. *)
Definition lower_char (c : ascii) : ascii :=
  let n := code c in
  if ((65 <=? n) && (n <=? 90))
     || ((192 <=? n) && (n <=? 222) && negb (n =? 215))
  then ascii_of_nat (n + 32) else c.

Definition toLowerCase (s : jsstring) : jsstring := map lower_char s.

Fixpoint dropWhile (p : ascii -> bool) (s : jsstring) : jsstring :=
  match s with
  | [] => []
  | c :: s' => if p c then dropWhile p s' else s
  end.

Fixpoint takeWhile (p : ascii -> bool) (s : jsstring) : jsstring :=
  match s with
  | [] => []
  | c :: s' => if p c then c :: takeWhile p s' else []
  end.

Definition trimStart (s : jsstring) : jsstring := dropWhile is_space s.
Definition trimEnd (s : jsstring) : jsstring := rev (dropWhile is_space (rev s)).

(** [String.prototype.trim]. *)
Definition trim (s : jsstring) : jsstring := trimEnd (trimStart s).

Definition starts_ws (s : jsstring) : bool :=
  match s with
  | c :: _ => is_space c
  | [] => false
  end.

Fixpoint ends_ws (s : jsstring) : bool :=
  match s with
  | [] => false
  | [c] => is_space c
  | _ :: s' => ends_ws s'
  end.

(** [s.split(/\s+/)]: the pieces of [s] between its maximal runs of white
    space.  The result is never empty: the empty string gives [[""]], and a
    string that starts (ends) with white space gives a leading (trailing)
    empty piece. *)
Fixpoint split_ws (s : jsstring) : list jsstring :=
  match s with
  | [] => [[]]
  | c :: s' =>
      if is_space c then
        if starts_ws s' then split_ws s' else [] :: split_ws s'
      else
        match split_ws s' with
        | w :: ws => (c :: w) :: ws
        | [] => [[c]]
        end
  end.

(** A JavaScript string is falsy exactly when it is empty. *)
Definition is_empty (s : jsstring) : bool :=
  match s with
  | [] => true
  | _ :: _ => false
  end.

Definition nonempty (s : jsstring) : bool := negb (is_empty s).

(** [s.startsWith(p)] *)
Fixpoint is_prefix (p s : jsstring) : bool :=
  match p, s with
  | [], _ => true
  | a :: p', b :: s' => Ascii.eqb a b && is_prefix p' s'
  | _ :: _, [] => false
  end.

(** [s.includes(p)], also [/p/.test(s)] for a literal [p]. *)
Fixpoint includes (p s : jsstring) : bool :=
  is_prefix p s ||
  match s with
  | [] => false
  | _ :: s' => includes p s'
  end.

(** The whitespace-delimited words of a text: its maximal runs of
    characters that are not white space. *)
Definition tokens (s : jsstring) : list jsstring := filter nonempty (split_ws s).

(** A text is blank when trimming leaves nothing. *)
Definition blank (s : jsstring) : bool := is_empty (trim s).

(** [s.match(re).length] for a regular expression [re] with the [g] flag
    that matches no empty string, [0] when [match] returns [null].
    [match_at s] is the length of the match of [re] that starts where [s]
    starts, if there is one.  The scan goes from left to right; after a
    match it resumes where the match ended: [skip] counts the characters
    of the last match that are still ahead. *)
Fixpoint count_matches (match_at : jsstring -> option nat) (skip : nat) (s : jsstring)
  : nat :=
  match s with
  | [] => 0
  | _ :: s' =>
      match skip with
      | S k => count_matches match_at k s'
      | 0 =>
          match match_at s with
          | Some n => 1 + count_matches match_at (n - 1) s'
          | None => count_matches match_at 0 s'
          end
      end
  end.

(** The match of a literal pattern [p]. *)
Definition literal_at (p s : jsstring) : option nat :=
  if is_prefix p s then Some (length p) else None.

End JsString.
Import JsString.

Notation "'txt' s" := (of_string s%string) (at level 9, s at level 0, only parsing).

(** ** JavaScript numbers *)

Module JsNumber.

(** The number of a length or of a loop counter. *)
Definition num (n : nat) : Q := inject_Z (Z.of_nat n).

(** [Math.round]: the nearest integer, a tie going up. *)
Definition Math_round (x : Q) : Z := Qfloor (x + (1 # 2)).

(** [Math.max(lo, Math.min(hi, x))] on numbers. *)
Definition Qclamp (lo hi x : Q) : Q := Qmax lo (Qmin hi x).

End JsNumber.
Import JsNumber.

(** ** src/utils/phonemeUtils.ts *)

Module PhonemeUtils.

(** One row [matrix[i]] of the distance matrix, after its first cell.
    [ci] is [str2.charAt(i - 1)], [str1] the characters still to the right,
    [prev] the cells [matrix[i-1][j-1]], [matrix[i-1][j]], ... of the row
    above and [left] the cell [matrix[i][j-1]] just written. *)
Fixpoint fill_row (ci : ascii) (str1 : jsstring) (prev : list nat) (left : nat)
  : list nat :=
  match str1, prev with
  | cj :: str1', diag :: ((up :: _) as prev') =>
      let cell :=
        if Ascii.eqb ci cj then diag
        else Nat.min (Nat.min (diag + 1) (left + 1)) (up + 1) in
      cell :: fill_row ci str1' prev' cell
  | _, _ => []
  end.

(** Rows [1 .. str2.length] of the matrix, each from the row above; the
    result is the last row.  Row [i] starts with [matrix[i][0] = i]. *)
Fixpoint fill_rows (str1 str2 : jsstring) (i : nat) (prev : list nat) : list nat :=
  match str2 with
  | [] => prev
  | ci :: str2' => fill_rows str1 str2' (S i) (S i :: fill_row ci str1 prev (S i))
  end.

(** [levenshteinDistance]: row 0 is [0, 1, ..., str1.length]; the distance
    is [matrix[str2.length][str1.length]], the last cell of the last row. *)
Definition levenshteinDistance (str1 str2 : jsstring) : nat :=
  last (fill_rows str1 str2 0 (seq 0 (S (length str1)))) 0.

(** [calculateStringSimilarity] *)
Definition calculateStringSimilarity (str1 str2 : jsstring) : Q :=
  let longer := if length str2 <? length str1 then str1 else str2 in
  let shorter := if length str2 <? length str1 then str2 else str1 in
  if length longer =? 0 then 1%Q
  else
    let distance := levenshteinDistance longer shorter in
    ((num (length longer) - num distance) / num (length longer))%Q.

(** The body of the loop of [comparePhonemes] at index [i]. *)
Definition match_step (userWords targetWords : list jsstring) (matches : Q) (i : nat) : Q :=
  match nth_error userWords i, nth_error targetWords i with
  | Some u, Some t =>
      if list_eq_dec ascii_dec u t then (matches + 1)%Q
      else (matches + calculateStringSimilarity u t)%Q
  | _, _ => matches
  end.

(** [comparePhonemes] *)
Definition comparePhonemes (userText targetText : jsstring) : Z :=
  if is_empty userText || is_empty targetText then 0%Z
  else
    let userWords := split_ws (trim (toLowerCase userText)) in
    let targetWords := split_ws (trim (toLowerCase targetText)) in
    let maxLength := Nat.max (length userWords) (length targetWords) in
    let matches :=
      fold_left (match_step userWords targetWords)
        (seq 0 (Nat.min (length userWords) (length targetWords))) 0%Q in
    Math_round (matches / num maxLength * 100)%Q.

(** The twelve letter grades. *)
Inductive Grade : Set :=
  | A_plus | A | A_minus | B_plus | B | B_minus
  | C_plus | C | C_minus | D_plus | D | F.

Definition grade_token (g : Grade) : string :=
  match g with
  | A_plus => "A+" | A => "A" | A_minus => "A-"
  | B_plus => "B+" | B => "B" | B_minus => "B-"
  | C_plus => "C+" | C => "C" | C_minus => "C-"
  | D_plus => "D+" | D => "D" | F => "F"
  end%string.

(** [getLetterGrade] *)
Definition getLetterGrade (score : Q) : Grade :=
  if Qle_bool 97 score then A_plus
  else if Qle_bool 93 score then A
  else if Qle_bool 90 score then A_minus
  else if Qle_bool 87 score then B_plus
  else if Qle_bool 83 score then B
  else if Qle_bool 80 score then B_minus
  else if Qle_bool 77 score then C_plus
  else if Qle_bool 73 score then C
  else if Qle_bool 70 score then C_minus
  else if Qle_bool 67 score then D_plus
  else if Qle_bool 65 score then D
  else F.

End PhonemeUtils.
Import PhonemeUtils.

(** ** src/agents/ComparisonAgent.ts *)

Module ComparisonAgent.

(** [calculateLengthPenalty] *)
Definition calculateLengthPenalty (userText targetText : jsstring) : Q :=
  let userWords := length (split_ws (trim userText)) in
  let targetWords := length (split_ws (trim targetText)) in
  let lengthDifference := Z.abs (Z.of_nat userWords - Z.of_nat targetWords) in
  let maxWords := Nat.max userWords targetWords in
  if maxWords =? 0 then 0%Q
  else (inject_Z lengthDifference / num maxWords * 30)%Q.

(** The loop state of [calculateWordOrderBonus]. *)
Record OrderState : Set := mkOrderState {
  consecutiveMatches : nat;
  maxConsecutive : nat
}.

Definition order_step (userWords targetWords : list jsstring) (st : OrderState) (i : nat)
  : OrderState :=
  match nth_error userWords i, nth_error targetWords i with
  | Some u, Some t =>
      if list_eq_dec ascii_dec u t then
        mkOrderState (consecutiveMatches st + 1)
          (Nat.max (maxConsecutive st) (consecutiveMatches st + 1))
      else mkOrderState 0 (maxConsecutive st)
  | _, _ => st
  end.

(** [calculateWordOrderBonus] *)
Definition calculateWordOrderBonus (userText targetText : jsstring) : Q :=
  let userWords := split_ws (trim (toLowerCase userText)) in
  let targetWords := split_ws (trim (toLowerCase targetText)) in
  let st :=
    fold_left (order_step userWords targetWords)
      (seq 0 (Nat.min (length userWords) (length targetWords)))
      (mkOrderState 0 0) in
  (num (maxConsecutive st) / num (length targetWords) * 20)%Q.

(** [compareTexts] *)
Definition compareTexts (userText targetText : jsstring) : Z :=
  if is_empty userText || is_empty targetText then 0%Z
  else
    let score := comparePhonemes userText targetText in
    let lengthPenalty := calculateLengthPenalty userText targetText in
    let wordOrderBonus := calculateWordOrderBonus userText targetText in
    let finalScore :=
      (inject_Z score * 0.7 + wordOrderBonus * 0.2 - lengthPenalty * 0.1)%Q in
    Z.max 0 (Z.min 100 (Math_round finalScore)).

Record Substitution : Set := mkSubstitution {
  original : jsstring;
  spoken : jsstring
}.

Record ErrorReport : Set := mkErrorReport {
  missedWords : list jsstring;
  addedWords : list jsstring;
  substitutions : list Substitution
}.

(** A word read at an index is a string or [null]; as a condition, [null]
    and the empty string are false. *)
Definition truthy (w : option jsstring) : bool :=
  match w with
  | Some (_ :: _) => true
  | _ => false
  end.

Definition the_word (w : option jsstring) : jsstring :=
  match w with
  | Some s => s
  | None => []
  end.

Definition same_word (a b : option jsstring) : bool :=
  if list_eq_dec ascii_dec (the_word a) (the_word b) then true else false.

(** The body of the loop of [analyzeErrors] at index [i]. *)
Definition error_step (userWords targetWords : list jsstring) (r : ErrorReport) (i : nat)
  : ErrorReport :=
  let userWord := nth_error userWords i in
  let targetWord := nth_error targetWords i in
  if truthy targetWord && negb (truthy userWord) then
    mkErrorReport (missedWords r ++ [the_word targetWord]) (addedWords r) (substitutions r)
  else if truthy userWord && negb (truthy targetWord) then
    mkErrorReport (missedWords r) (addedWords r ++ [the_word userWord]) (substitutions r)
  else if truthy userWord && truthy targetWord && negb (same_word userWord targetWord) then
    mkErrorReport (missedWords r) (addedWords r)
      (substitutions r ++ [mkSubstitution (the_word targetWord) (the_word userWord)])
  else r.

(** [analyzeErrors] *)
Definition analyzeErrors (userText targetText : jsstring) : ErrorReport :=
  let userWords := split_ws (trim (toLowerCase userText)) in
  let targetWords := split_ws (trim (toLowerCase targetText)) in
  let maxLength := Nat.max (length userWords) (length targetWords) in
  fold_left (error_step userWords targetWords) (seq 0 maxLength)
    (mkErrorReport [] [] []).

(** The character class [[bcdfghjklmnpqrstvwxyz]] under the [i] flag. *)
Definition is_consonant (c : ascii) : bool :=
  existsb (Ascii.eqb (lower_char c)) (of_string "bcdfghjklmnpqrstvwxyz").

(** The match of [/[bcdfghjklmnpqrstvwxyz]{3,}/gi] at the start of [s]:
    the quantifier is greedy, so the match is the whole run of consonants
    there, when it has three characters or more. *)
Definition cluster_at (s : jsstring) : option nat :=
  let n := length (takeWhile is_consonant s) in
  if 3 <=? n then Some n else None.

(** [countConsonantClusters] *)
Definition countConsonantClusters (text : jsstring) : nat :=
  count_matches cluster_at 0 text.

Definition uncommonPatterns : list jsstring :=
  [of_string "th"; of_string "zh"; of_string "ng"; of_string "tion"; of_string "sion"].

(** [countUncommonSounds] *)
Definition countUncommonSounds (text : jsstring) : nat :=
  fold_left
    (fun count pattern => count + count_matches (literal_at pattern) 0 (toLowerCase text))
    uncommonPatterns 0.

(** The object [startingSounds]: its keys with their counts, in the order
    in which the keys were first written. *)
Definition SoundCounts := list (ascii * nat).

(** [startingSounds[k] = (startingSounds[k] || 0) + 1] *)
Fixpoint bump (k : ascii) (m : SoundCounts) : SoundCounts :=
  match m with
  | [] => [(k, 1)]
  | (k', v) :: m' =>
      if Ascii.eqb k k' then (k', v + 1) :: m' else (k', v) :: bump k m'
  end.

Definition count_start (m : SoundCounts) (word : jsstring) : SoundCounts :=
  match word with
  | [] => m
  | firstSound :: _ => bump firstSound m
  end.

Definition twister_step (twisterScore count : nat) : nat :=
  if 3 <=? count then twisterScore + (count - 2) else twisterScore.

(** [detectTongueTwisters].  [Object.values] lists the counts of the digit
    keys first; the sum below does not depend on the order. *)
Definition detectTongueTwisters (text : jsstring) : nat :=
  let words := split_ws (toLowerCase text) in
  let startingSounds := fold_left count_start words [] in
  fold_left twister_step (map snd startingSounds) 0.

(** [calculateDifficulty] *)
Definition calculateDifficulty (text : jsstring) : Z :=
  let words := split_ws (toLowerCase text) in
  let longWords := length (filter (fun word => 7 <? length word) words) * 2 in
  let consonantClusters := countConsonantClusters text in
  let uncommonSounds := countUncommonSounds text in
  let tongueTristers := detectTongueTwisters text in
  let difficultyScore := longWords + consonantClusters + uncommonSounds + tongueTristers in
  Z.min 10 (Z.max 1 (Math_round (num difficultyScore / num (length words) * 5)%Q)).

End ComparisonAgent.
Import ComparisonAgent.

(** ** src/phrases.ts *)

Module Phrases.

Inductive Level : Set := basic | intermediate | advanced.

Definition Qgt_bool (a b : Q) : bool := negb (Qle_bool a b).



(** The pattern [(\w)\w*\s+\w*\1], piece by piece; [c] is the character
    captured by the group.  Each function tries every way its piece can
    match, as the backtracking matcher does. *)









End Phrases.
Import Phrases.

(** ** src/agents/FeedbackAgent.ts *)

Module FeedbackAgent.

(** The six messages of [generateMotivationalMessage]. *)
Inductive Message : Set :=
  | Welcome | AmazingImprovement | GreatProgress | NiceJob | StayConsistent | DontWorry.

(** [previousScores.slice(-3)] *)
Definition slice_last3 (previousScores : list Q) : list Q :=
  skipn (length previousScores - 3) previousScores.

(** [generateMotivationalMessage] *)
Definition generateMotivationalMessage (currentScore : Q) (previousScores : list Q)
  : Message :=
  if length previousScores =? 0 then Welcome
  else
    let recentAverage :=
      (fold_left Qplus (slice_last3 previousScores) 0
       / num (Nat.min 3 (length previousScores)))%Q in
    let improvement := (currentScore - recentAverage)%Q in
    if Qgt_bool improvement 10 then AmazingImprovement
    else if Qgt_bool improvement 5 then GreatProgress
    else if Qgt_bool improvement 0 then NiceJob
    else if Qgt_bool improvement (-5) then StayConsistent
    else DontWorry.

End FeedbackAgent.
Import FeedbackAgent.

(** ** src/utils/phonemeUtils.ts: practice texts and feedback *)

Module PhonemeFeedback.

(** [array[index]] for a number [index]: [undefined] outside the array. *)
Definition array_get (A : Type) (l : list A) (index : Z) : option A :=
  if (index <? 0)%Z then None else nth_error l (Z.to_nat index).

(** [array[Math.floor(random * array.length)]], [random] being the value of
    [Math.random()]. *)
Definition random_element (A : Type) (l : list A) (random : Q) : option A :=
  array_get l (Qfloor (random * num (length l))%Q).

Definition PRACTICE_TEXTS : list jsstring :=
  map of_string
    ["The quick brown fox jumps over the lazy dog near the peaceful river.";
     "She sells seashells by the seashore, where waves crash against weathered rocks.";
     "Peter Piper picked a peck of pickled peppers from the garden yesterday.";
     "How much wood would a woodchuck chuck if a woodchuck could chuck wood?";
     "The thirty-three thieves thought they thrilled the throne throughout Thursday.";
     "Red leather, yellow leather, repeat this phrase three times very quickly.";
     "Unique New York's unique yellow unicorns live near the university.";
     "Six sick slick slim sycamore saplings stood silently in the snow.";
     "The blue bluebird blinks brightly in the brilliant morning sunshine.";
     "Freshly fried flying fish taste fantastic when prepared with fine seasonings."]%string.

(** [getRandomPracticeText] *)
Definition getRandomPracticeText (random : Q) : option jsstring :=
  random_element PRACTICE_TEXTS random.

(** An entry of [PRONUNCIATION_PATTERNS]: the key, [common_errors] and
    [tip]; no function reads [correct_sound]. *)
Record Pattern : Set := mkPattern {
  sound : jsstring;
  common_errors : list jsstring;
  tip : string
}.

(** [Object.entries(PRONUNCIATION_PATTERNS)], in the order of the keys. *)
Definition PRONUNCIATION_PATTERNS : list Pattern :=
  [mkPattern (of_string "th") [of_string "d"; of_string "f"; of_string "z"]
     "Place tongue between teeth and blow air gently";
   mkPattern (of_string "r") [of_string "w"; of_string "l"]
     "Curl tongue tip back without touching the roof of mouth";
   mkPattern (of_string "l") [of_string "r"; of_string "w"]
     "Touch tongue tip to roof of mouth behind front teeth";
   mkPattern (of_string "v") [of_string "b"; of_string "f"]
     "Bite lower lip gently and vibrate vocal cords";
   mkPattern (of_string "w") [of_string "v"; of_string "r"]
     "Round lips and blow air out gently"]%string.

(** The feedback strings, one constructor for each string of the source;
    [feedback_text] gives the string. *)
Inductive FeedbackItem : Set :=
  | ExcellentPronunciation | GreatJob | GoodEffort | KeepPracticing | TakesTime
  | PracticeSound (sound : jsstring) (tip : string)
  | TipReadSlowly | TipMoveMouth
  | Outstanding | TryChallengingTexts
  | GreatWork | MaintainClarity
  | GoodJob | TryLongerSentences
  | KeepImproving | ReadAloudDaily
  | DontGiveUp | SpeakSlowlyFirst
  | EveryExpert | BreakDownWords
  | SpeakAllWords | AvoidExtraWords | PayAttentionToOrder
  | FocusOnSounds (sounds : list jsstring).

Definition quote : string := String (ascii_of_nat 34) EmptyString.

(** [sounds.join(', ')] *)
Fixpoint join_sounds (sounds : list jsstring) : string :=
  match sounds with
  | [] => EmptyString
  | [x] => string_of_list_ascii x
  | x :: rest => string_of_list_ascii x ++ ", " ++ join_sounds rest
  end%string.

Definition feedback_text (item : FeedbackItem) : string :=
  match item with
  | ExcellentPronunciation =>
      "Excellent pronunciation! Your speech is very clear and accurate."
  | GreatJob =>
      "Great job! Your pronunciation is good with minor areas for improvement."
  | GoodEffort => "Good effort! There are some pronunciation patterns to work on."
  | KeepPracticing => "Keep practicing! Focus on speaking more slowly and clearly."
  | TakesTime =>
      "Don't worry - pronunciation takes time to improve. Try speaking more slowly."
  | PracticeSound s t =>
      "Practice the " ++ quote ++ string_of_list_ascii s ++ quote ++ " sound: " ++ t
  | TipReadSlowly =>
      "Tip: Try reading more slowly and enunciating each word clearly."
  | TipMoveMouth =>
      "Focus on moving your mouth and tongue deliberately for each sound."
  | Outstanding => "🌟 Outstanding! You have excellent pronunciation clarity."
  | TryChallengingTexts =>
      "Consider trying more challenging texts to further improve."
  | GreatWork => "🎯 Great work! Your pronunciation is very good."
  | MaintainClarity => "Focus on maintaining this level of clarity consistently."
  | GoodJob => "👍 Good job! You're making solid progress."
  | TryLongerSentences => "Try practicing with longer sentences to build fluency."
  | KeepImproving => "📈 Keep improving! You're on the right track."
  | ReadAloudDaily => "Practice reading aloud daily to build muscle memory."
  | DontGiveUp => "💪 Don't give up! Pronunciation skills take time to develop."
  | SpeakSlowlyFirst => "Focus on speaking slowly and clearly at first."
  | EveryExpert => "🌱 Every expert was once a beginner. Keep practicing!"
  | BreakDownWords => "Try breaking down difficult words into smaller parts."
  | SpeakAllWords => "⚡ Try to speak all the words in the text. Take your time!"
  | AvoidExtraWords =>
      "🎯 Focus on speaking just the words shown. Avoid adding extra words."
  | PayAttentionToOrder => "📝 Pay attention to the word order in the text."
  | FocusOnSounds sounds => "🔤 Focus on these sounds: " ++ join_sounds sounds
  end%string.

(** The first message of [generatePronunciationFeedback], by the score. *)
Definition score_message (score : Q) : FeedbackItem :=
  if Qle_bool 90 score then ExcellentPronunciation
  else if Qle_bool 80 score then GreatJob
  else if Qle_bool 70 score then GoodEffort
  else if Qle_bool 60 score then KeepPracticing
  else TakesTime.

(** The body of the loop over [PRONUNCIATION_PATTERNS]. *)
Definition pattern_step (userLower targetLower : jsstring)
  (feedback : list FeedbackItem) (pattern : Pattern) : list FeedbackItem :=
  let targetHasSound := includes (sound pattern) targetLower in
  let userHasSound := includes (sound pattern) userLower in
  if targetHasSound && negb userHasSound
  then feedback ++ [PracticeSound (sound pattern) (tip pattern)]
  else feedback.

(** [generatePronunciationFeedback] *)
Definition generatePronunciationFeedback (userText targetText : jsstring) (score : Q)
  : list FeedbackItem :=
  let feedback := [score_message score] in
  let userLower := toLowerCase userText in
  let targetLower := toLowerCase targetText in
  let feedback :=
    fold_left (pattern_step userLower targetLower) PRONUNCIATION_PATTERNS feedback in
  if Qle_bool 80 score then feedback
  else feedback ++ [TipReadSlowly; TipMoveMouth].

End PhonemeFeedback.
Import PhonemeFeedback.

(** ** src/agents/FeedbackAgent.ts: the feedback of an attempt *)

Module FeedbackComposer.

(** [generatePerformanceFeedback] *)
Definition generatePerformanceFeedback (score : Q) : list FeedbackItem :=
  if Qle_bool 95 score then [Outstanding; TryChallengingTexts]
  else if Qle_bool 85 score then [GreatWork; MaintainClarity]
  else if Qle_bool 75 score then [GoodJob; TryLongerSentences]
  else if Qle_bool 65 score then [KeepImproving; ReadAloudDaily]
  else if Qle_bool 50 score then [DontGiveUp; SpeakSlowlyFirst]
  else [EveryExpert; BreakDownWords].

Definition word_order_step (userWords targetWords : list jsstring)
  (correctOrder i : nat) : nat :=
  match nth_error userWords i, nth_error targetWords i with
  | Some u, Some t => if list_eq_dec ascii_dec u t then correctOrder + 1 else correctOrder
  | _, _ => correctOrder
  end.

(** [checkWordOrder] *)
Definition checkWordOrder (userWords targetWords : list jsstring) : Q :=
  let minLength := Nat.min (length userWords) (length targetWords) in
  let correctOrder :=
    fold_left (word_order_step userWords targetWords) (seq 0 minLength) 0 in
  if 0 <? length targetWords
  then (num correctOrder / num (length targetWords))%Q
  else 0%Q.

Record SoundCheck : Set := mkSoundCheck {
  check_target : jsstring;
  check_user : jsstring;
  check_sound : jsstring
}.

Definition soundChecks : list SoundCheck :=
  [mkSoundCheck (of_string "th") (of_string "d") (of_string "th");
   mkSoundCheck (of_string "th") (of_string "f") (of_string "th");
   mkSoundCheck (of_string "r") (of_string "w") (of_string "r");
   mkSoundCheck (of_string "l") (of_string "r") (of_string "l");
   mkSoundCheck (of_string "v") (of_string "b") (of_string "v");
   mkSoundCheck (of_string "w") (of_string "v") (of_string "w")].

(** [issues.includes(sound)] *)
Definition has_sound (issues : list jsstring) (s : jsstring) : bool :=
  existsb (fun x => if list_eq_dec ascii_dec x s then true else false) issues.

Definition sound_check_step (userLower targetLower : jsstring)
  (issues : list jsstring) (check : SoundCheck) : list jsstring :=
  if includes (check_target check) targetLower && includes (check_user check) userLower
  then
    if negb (has_sound issues (check_sound check))
    then issues ++ [check_sound check]
    else issues
  else issues.

(** [detectSoundIssues] *)
Definition detectSoundIssues (userText targetText : jsstring) : list jsstring :=
  let userLower := toLowerCase userText in
  let targetLower := toLowerCase targetText in
  fold_left (sound_check_step userLower targetLower) soundChecks [].

(** [generateTechnicalFeedback] *)
Definition generateTechnicalFeedback (userText targetText : jsstring)
  : list FeedbackItem :=
  let userWords := split_ws (trim (toLowerCase userText)) in
  let targetWords := split_ws (trim (toLowerCase targetText)) in
  let feedback := [] in
  let feedback :=
    if Qgt_bool (num (length targetWords) * 0.7)%Q (num (length userWords))
    then feedback ++ [SpeakAllWords] else feedback in
  let feedback :=
    if Qgt_bool (num (length userWords)) (num (length targetWords) * 1.3)%Q
    then feedback ++ [AvoidExtraWords] else feedback in
  let orderCorrect := checkWordOrder userWords targetWords in
  let feedback :=
    if Qgt_bool 0.8 orderCorrect then feedback ++ [PayAttentionToOrder] else feedback in
  let soundIssues := detectSoundIssues userText targetText in
  if 0 <? length soundIssues then feedback ++ [FocusOnSounds soundIssues]
  else feedback.

(** [generateFeedback] *)
Definition generateFeedback (userText targetText : jsstring) (score : Q)
  : list FeedbackItem :=
  let feedback := generatePronunciationFeedback userText targetText score in
  let performanceFeedback := generatePerformanceFeedback score in
  let technicalFeedback := generateTechnicalFeedback userText targetText in
  feedback ++ performanceFeedback ++ technicalFeedback.

(** The strings of [getPracticeSuggestions]. *)
Inductive Suggestion : Set :=
  | StartShorter | ReadTenMinutes | RecordYourself
  | ConsistentPace | PracticeTwisters | ProblematicSounds
  | ComplexTexts | SpeedsAndEmotions | IntonationAndRhythm
  | BreakIntoSyllables | SoundsInIsolation.

Definition suggestion_text (x : Suggestion) : string :=
  match x with
  | StartShorter => "Start with shorter, simpler sentences"
  | ReadTenMinutes => "Practice reading aloud for 10 minutes daily"
  | RecordYourself => "Record yourself and listen to identify problem areas"
  | ConsistentPace => "Work on maintaining consistent pace and clarity"
  | PracticeTwisters => "Practice tongue twisters to improve articulation"
  | ProblematicSounds => "Focus on problematic sounds identified in feedback"
  | ComplexTexts => "Challenge yourself with more complex texts"
  | SpeedsAndEmotions => "Practice different speaking speeds and emotions"
  | IntonationAndRhythm => "Work on natural intonation and rhythm"
  | BreakIntoSyllables => "Break down complex words into syllables"
  | SoundsInIsolation => "Practice difficult sounds in isolation first"
  end%string.

(** [getPracticeSuggestions] *)
Definition getPracticeSuggestions (score difficulty : Q) : list Suggestion :=
  let suggestions :=
    if Qgt_bool 70 score then [StartShorter; ReadTenMinutes; RecordYourself]
    else if Qgt_bool 85 score then [ConsistentPace; PracticeTwisters; ProblematicSounds]
    else [ComplexTexts; SpeedsAndEmotions; IntonationAndRhythm] in
  if Qgt_bool difficulty 7 then suggestions ++ [BreakIntoSyllables; SoundsInIsolation]
  else suggestions.

End FeedbackComposer.
Import FeedbackComposer.

(** ** src/phrases.ts: the phrase bank *)

Module PhraseBank.

Definition BASIC_PHRASES : list jsstring :=
  map of_string
    ["The quick brown fox jumps over the lazy dog.";
     "Hello, how are you doing today?";
     "I would like a cup of coffee, please.";
     "The weather is very nice this morning.";
     "Can you help me find my keys?"]%string.

Definition INTERMEDIATE_PHRASES : list jsstring :=
  map of_string
    ["She sells seashells by the seashore, where waves crash against weathered rocks.";
     "The thirty-three thieves thought they thrilled the throne throughout Thursday.";
     "Unique New York's unique yellow unicorns live near the university.";
     "How much wood would a woodchuck chuck if a woodchuck could chuck wood?";
     "Red leather, yellow leather, repeat this phrase three times very quickly."]%string.

Definition ADVANCED_PHRASES : list jsstring :=
  map of_string
    ["Peter Piper picked a peck of pickled peppers from the garden yesterday.";
     "Six sick slick slim sycamore saplings stood silently in the snow.";
     "The blue bluebird blinks brightly in the brilliant morning sunshine.";
     "Freshly fried flying fish taste fantastic when prepared with fine seasonings.";
     "Which wrist watch is a Swiss wrist watch with a white wrist strap?"]%string.

(** The keys of [SOUND_FOCUS_PHRASES]. *)
Inductive SoundFocus : Set := focus_th | focus_r_l | focus_v_w | focus_s_sh.

Definition SOUND_FOCUS_PHRASES (key : SoundFocus) : list jsstring :=
  map of_string
    match key with
    | focus_th =>
        ["Think about those thirty-three thick things.";
         "The thin man threw three thick threads through the thick cloth.";
         "Neither brother bothered with the weather."]
    | focus_r_l =>
        ["Really rural people rarely relax regularly.";
         "Larry loves lovely lilies in the local library.";
         "Red lorries, yellow lorries racing rapidly."]
    | focus_v_w =>
        ["Very well, we will wave while we wait.";
         "Vivian's velvet vest was very vivid.";
         "Wild wolves wander while wind whistles."]
    | focus_s_sh =>
        ["She surely shall share her shiny shoes.";
         "Six sick sheep sat silently in the shade.";
         "Fresh fish and chips served on silver dishes."]
    end%string.

Definition ALL_PHRASES : list jsstring :=
  BASIC_PHRASES ++ INTERMEDIATE_PHRASES ++ ADVANCED_PHRASES
  ++ concat (map SOUND_FOCUS_PHRASES [focus_th; focus_r_l; focus_v_w; focus_s_sh]).

(** [getRandomPhrase] *)
Definition getRandomPhrase (random : Q) : option jsstring :=
  random_element ALL_PHRASES random.

(** [getPhraseByLevel]; the three levels are all the values of the type of
    [level]. *)
Definition getPhraseByLevel (level : Level) (random : Q) : option jsstring :=
  let phrases :=
    match level with
    | basic => BASIC_PHRASES
    | intermediate => INTERMEDIATE_PHRASES
    | advanced => ADVANCED_PHRASES
    end in
  random_element phrases random.

(** [getPhraseBySound] *)
Definition getPhraseBySound (sound : SoundFocus) (random : Q) : option jsstring :=
  random_element (SOUND_FOCUS_PHRASES sound) random.

End PhraseBank.
Import PhraseBank.

(** ** src/agents/PracticeAgent.ts *)

Module PracticeAgent.

(** The index that [slice] makes of an argument: counted from the end when
    negative, and kept inside the array. *)
Definition slice_index (n : nat) (i : Z) : nat :=
  Z.to_nat (if (i <? 0)%Z then Z.max (Z.of_nat n + i) 0 else Z.min i (Z.of_nat n)).

(** [array.slice(start)] *)
Definition slice_from (A : Type) (l : list A) (start : Z) : list A :=
  skipn (slice_index (length l) start) l.

(** [array.slice(start, end)] *)
Definition slice (A : Type) (l : list A) (start stop : Z) : list A :=
  firstn (slice_index (length l) stop - slice_index (length l) start)
    (skipn (slice_index (length l) start) l).

(** [array.reduce((sum, score) => sum + score, 0)] *)
Definition sum_scores (l : list Q) : Q := fold_left Qplus l 0%Q.

(** The agent with the item that [localStorage] holds under [STORAGE_KEY]:
    of the item only [sessionHistory] is read back; [lastUpdated], a time
    stamp, is left out.  [None] is the missing item.  Writing to the
    storage is taken to succeed. *)
Record Agent : Type := mkAgent {
  sessionHistory : list Q;
  stored : option (list Q)
}.

(** [saveStats] *)
Definition saveStats (a : Agent) : Agent :=
  mkAgent (sessionHistory a) (Some (sessionHistory a)).

(** [loadStats] *)
Definition loadStats (a : Agent) : Agent :=
  match stored a with
  | Some history => mkAgent history (stored a)
  | None => a
  end.

(** [new PracticeAgent()] over a storage. *)
Definition newAgent (storage : option (list Q)) : Agent :=
  loadStats (mkAgent [] storage).

(** [recordSession] *)
Definition recordSession (score : Q) (a : Agent) : Agent :=
  let history := sessionHistory a ++ [score] in
  let history := if 50 <? length history then slice_from history (-50) else history in
  saveStats (mkAgent history (stored a)).

Record Stats : Type := mkStats {
  sessionsCompleted : nat;
  averageScore : Z;
  recentScores : list Q
}.

(** [getStats] *)
Definition getStats (a : Agent) : Stats :=
  let sessionsCompleted := length (sessionHistory a) in
  let averageScore :=
    if 0 <? sessionsCompleted
    then Math_round (sum_scores (sessionHistory a) / num sessionsCompleted)%Q
    else 0%Z in
  mkStats sessionsCompleted averageScore (slice_from (sessionHistory a) (-10)).

Inductive Trend : Set := improving | stable | declining | insufficient_data.

(** [trendPercentage] is [None] when it is not a finite number: the
    earlier average is 0 and the division gives [Infinity] or [NaN]. *)
Record ProgressTrend : Type := mkProgressTrend {
  trend : Trend;
  trendPercentage : option Z
}.

(** [getProgressTrend] *)
Definition getProgressTrend (a : Agent) : ProgressTrend :=
  if length (sessionHistory a) <? 3 then mkProgressTrend insufficient_data (Some 0%Z)
  else
    let recent := slice_from (sessionHistory a) (-5) in
    let earlier := slice (sessionHistory a) (-10) (-5) in
    if length earlier =? 0 then mkProgressTrend insufficient_data (Some 0%Z)
    else
      let recentAverage := (sum_scores recent / num (length recent))%Q in
      let earlierAverage := (sum_scores earlier / num (length earlier))%Q in
      let difference := (recentAverage - earlierAverage)%Q in
      let percentageChange :=
        if Qeq_bool earlierAverage 0 then None
        else Some (Math_round (difference / earlierAverage * 100)%Q) in
      let trend :=
        if Qgt_bool 2 (Qabs difference) then stable
        else if Qgt_bool difference 0 then improving
        else declining in
      mkProgressTrend trend (option_map Z.abs percentageChange).

(** [getRecommendedDifficulty] *)
Definition getRecommendedDifficulty (a : Agent) : Z :=
  if length (sessionHistory a) <? 3 then 3%Z
  else
    let recentAverage :=
      (sum_scores (slice_from (sessionHistory a) (-5))
       / num (Nat.min 5 (length (sessionHistory a))))%Q in
    if Qle_bool 90 recentAverage then 8%Z
    else if Qle_bool 80 recentAverage then 6%Z
    else if Qle_bool 70 recentAverage then 4%Z
    else if Qle_bool 60 recentAverage then 2%Z
    else 1%Z.

(** The strings of [getPersonalizedRecommendations]. *)
Inductive Recommendation : Set :=
  | StartDaily | PracticeConsistently | GreatConsistency
  | SpeakSlowlyClearly | ShorterTexts
  | VaryMaterials | ConsistencyAcrossTexts
  | ChallengeComplexTexts | AccentsOrSpeeds
  | GreatProgressPercent (trendPercentage : option Z)
  | TakeABreak | ReviewSessions
  | ChangeRoutine.

(** [getPersonalizedRecommendations] *)
Definition getPersonalizedRecommendations (a : Agent) : list Recommendation :=
  let stats := getStats a in
  let progress := getProgressTrend a in
  let frequency :=
    if sessionsCompleted stats =? 0 then [StartDaily]
    else if sessionsCompleted stats <? 7 then [PracticeConsistently]
    else if 30 <=? sessionsCompleted stats then [GreatConsistency]
    else [] in
  let performance :=
    if (averageScore stats <? 60)%Z then [SpeakSlowlyClearly; ShorterTexts]
    else if (averageScore stats <? 80)%Z then [VaryMaterials; ConsistencyAcrossTexts]
    else if (90 <=? averageScore stats)%Z then [ChallengeComplexTexts; AccentsOrSpeeds]
    else [] in
  let trending :=
    match trend progress with
    | improving => [GreatProgressPercent (trendPercentage progress)]
    | declining => [TakeABreak; ReviewSessions]
    | stable => [ChangeRoutine]
    | insufficient_data => []
    end in
  frequency ++ performance ++ trending.

(** [resetStats] *)
Definition resetStats (a : Agent) : Agent := saveStats (mkAgent [] (stored a)).

(** [importData]: the agent afterwards and the value returned. *)
Definition importData (data : list Q) (a : Agent) : Agent * bool :=
  if forallb (fun score => Qle_bool 0 score && Qle_bool score 100) data
  then (saveStats (mkAgent data (stored a)), true)
  else (a, false).

End PracticeAgent.
Import PracticeAgent.

(** ** src/agents/TranscriptionAgent.ts and src/agents/PronCoachAgent.ts *)

Module PronCoachAgent.

(** [simulateTranscription], of the size of the audio blob. *)
Definition simulateTranscription (size : Q) : jsstring :=
  let duration := (size / 16000)%Q in
  if Qgt_bool 5 duration then of_string "The quick brown fox jumps."
  else if Qgt_bool 15 duration
  then of_string "The quick brown fox jumps over the lazy dog near the river."
  else of_string
         "The quick brown fox jumps over the lazy dog near the peaceful river today.".

(** [transcribeAudio]: the text that the promise resolves to, [None] when
    it is rejected because there is no speech recognition.  The delay of
    the answer is not modelled. *)
Definition transcribeAudio (supported : bool) (size : Q) : option jsstring :=
  if supported then Some (simulateTranscription size) else None.

Record Result : Type := mkResult {
  transcription : jsstring;
  score : Z;
  feedback : list FeedbackItem;
  letterGrade : Grade
}.

(** What [processRecording] does with the transcription. *)
Definition evaluate (transcription targetText : jsstring) : Result :=
  let score := compareTexts transcription targetText in
  let feedback := generateFeedback transcription targetText (inject_Z score) in
  let letterGrade := getLetterGrade (inject_Z score) in
  mkResult transcription score feedback letterGrade.

(** [processRecording]: [None] when it throws, which it does when the
    transcription is rejected. *)
Definition processRecording (supported : bool) (size : Q) (targetText : jsstring)
  : option Result :=
  match transcribeAudio supported size with
  | Some transcription => Some (evaluate transcription targetText)
  | None => None
  end.

End PronCoachAgent.
Import PronCoachAgent.

(* ================================================================== *)
(** * The specification's notions

    The definitions of this part follow the words of the specification; the
    theorems below compare them with the functions above. *)

Module Spec.

(** The word sequence of a text: the text in lower case, split at its runs
    of white space. *)
Definition words_of (text : jsstring) : list jsstring := tokens (toLowerCase text).

(** The array of words that the code works on:
    [text.toLowerCase().trim().split(/\s+/)]. *)
Definition word_array (text : jsstring) : list jsstring :=
  split_ws (trim (toLowerCase text)).

(** What a position contributes to the base similarity: 1 for equal words,
    else the normalized Levenshtein similarity of the two words. *)
Definition word_credit (u t : jsstring) : Q :=
  if list_eq_dec ascii_dec u t then 1%Q else calculateStringSimilarity u t.

(** The sum of the credits over the positions below both word counts. *)
Fixpoint credit_sum (U T : list jsstring) : Q :=
  match U, T with
  | u :: U', t :: T' => (word_credit u t + credit_sum U' T')%Q
  | _, _ => 0%Q
  end.

Definition base_similarity (U T : list jsstring) : Q :=
  (credit_sum U T / num (Nat.max (length U) (length T)) * 100)%Q.

Definition length_penalty (U T : list jsstring) : Q :=
  (inject_Z (Z.abs (Z.of_nat (length U) - Z.of_nat (length T)))
   / num (Nat.max (length U) (length T)) * 30)%Q.

(** Position by position, whether the two words are equal. *)
Fixpoint positional_matches (U T : list jsstring) : list bool :=
  match U, T with
  | u :: U', t :: T' =>
      (if list_eq_dec ascii_dec u t then true else false) :: positional_matches U' T'
  | _, _ => []
  end.

(** The length of the run of matches that starts at the first position. *)
Fixpoint run_length (l : list bool) : nat :=
  match l with
  | true :: l' => S (run_length l')
  | _ => 0
  end.

(** The longest run of consecutive matches, over all starting positions. *)
Fixpoint longest_run (l : list bool) : nat :=
  match l with
  | [] => 0
  | _ :: l' => Nat.max (run_length l) (longest_run l')
  end.

Definition order_bonus (U T : list jsstring) : Q :=
  (num (longest_run (positional_matches U T)) / num (length T) * 20)%Q.

(** [round(clamp(base*0.7 + orderBonus*0.2 - lengthPenalty*0.1, 0, 100))] *)
Definition final_score (base orderBonus lengthPenalty : Q) : Z :=
  Math_round (Qclamp 0 100 (base * 0.7 + orderBonus * 0.2 - lengthPenalty * 0.1)%Q).

(** The score with the base similarity as a real number. *)
Definition score_of_exact_base (u t : jsstring) : Z :=
  let U := words_of u in
  let T := words_of t in
  final_score (base_similarity U T) (order_bonus U T) (length_penalty U T).


(** The positional walk of the error analysis at position [i]. *)
Definition diff_step (U T : list jsstring) (r : ErrorReport) (i : nat) : ErrorReport :=
  match nth_error U i, nth_error T i with
  | None, Some t => mkErrorReport (missedWords r ++ [t]) (addedWords r) (substitutions r)
  | Some u, None => mkErrorReport (missedWords r) (addedWords r ++ [u]) (substitutions r)
  | Some u, Some t =>
      if list_eq_dec ascii_dec u t then r
      else mkErrorReport (missedWords r) (addedWords r)
             (substitutions r ++ [mkSubstitution t u])
  | None, None => r
  end.

(** The walk over the positions [0 .. max(len(user), len(target)) - 1]. *)
Definition positional_diff (U T : list jsstring) : ErrorReport :=
  fold_left (diff_step U T) (seq 0 (Nat.max (length U) (length T)))
    (mkErrorReport [] [] []).

(** The cells of a row, from column [k] on, stay below the larger of the
    row index and the column index. *)
Definition row_bounded (i k : nat) (row : list nat) : Prop :=
  forall j v, nth_error row j = Some v -> v <= Nat.max i (k + j).

(** The word that the loop of [analyzeErrors] sees at an index: an empty
    string counts as no word. *)
Definition seen (W : list jsstring) (i : nat) : option jsstring :=
  if truthy (nth_error W i) then nth_error W i else None.

(** The substitutions of two word sequences: the pairs of unequal words at
    the positions where both sequences have a word. *)
Fixpoint substitutions_of (U T : list jsstring) : list Substitution :=
  match U, T with
  | u :: U', t :: T' =>
      if list_eq_dec ascii_dec u t then substitutions_of U' T'
      else mkSubstitution t u :: substitutions_of U' T'
  | _, _ => []
  end.







(** The number of words of a text that are longer than 7 characters. *)
Definition long_words (text : jsstring) : nat :=
  length (filter (fun w => 7 <? length w) (words_of text)).

(** The number of runs of consonants of length 3 or more: the positions
    where such a run starts, that is, where three or more consonants
    follow and no consonant precedes. *)
Fixpoint consonant_runs_from (after_consonant : bool) (s : jsstring) : nat :=
  match s with
  | [] => 0
  | c :: s' =>
      (if negb after_consonant && (3 <=? length (takeWhile is_consonant s))
       then 1 else 0)
      + consonant_runs_from (is_consonant c) s'
  end.

Definition consonant_runs (text : jsstring) : nat := consonant_runs_from false text.

(** The number of occurrences of [p] in [s]: the positions of [s] where
    [p] starts. *)
Fixpoint occurrences (p s : jsstring) : nat :=
  match s with
  | [] => if is_prefix p [] then 1 else 0
  | _ :: s' => (if is_prefix p s then 1 else 0) + occurrences p s'
  end.

Definition pattern_occurrences (text : jsstring) : nat :=
  list_sum (map (fun p => occurrences p (toLowerCase text)) uncommonPatterns).


Definition starts_with (c : ascii) (w : jsstring) : bool :=
  match w with
  | x :: _ => Ascii.eqb x c
  | [] => false
  end.

(** The number of words that start with [c]. *)
Definition words_starting (c : ascii) (W : list jsstring) : nat :=
  length (filter (starts_with c) W).

Definition all_chars : list ascii := map ascii_of_nat (seq 0 256).

(** What a starting letter shared by [count] words adds. *)
Definition excess (count : nat) : nat := if 3 <=? count then count - 2 else 0.

(** For each starting letter shared by three words or more, the number of
    these words less 2. *)
Definition twister_score (text : jsstring) : nat :=
  list_sum (map (fun c => excess (words_starting c (words_of text))) all_chars).

Definition difficulty_sum (text : jsstring) : nat :=
  2 * long_words text + consonant_runs text + pattern_occurrences text
  + twister_score text.



(** The last three scores, or all of them when there are fewer. *)
Definition last_three (scores : list Q) : list Q := rev (firstn 3 (rev scores)).

Definition Qsum (l : list Q) : Q := fold_right Qplus 0%Q l.

(** The average of the recent scores. *)
Definition recent_average (scores : list Q) : Q :=
  (Qsum (last_three scores) / num (length (last_three scores)))%Q.

(** The message of each tier of improvement. *)
Inductive tier (improvement : Q) : Message -> Prop :=
  | tier_amazing : (10 < improvement)%Q -> tier improvement AmazingImprovement
  | tier_great : (5 < improvement)%Q -> (improvement <= 10)%Q ->
      tier improvement GreatProgress
  | tier_nice : (0 < improvement)%Q -> (improvement <= 5)%Q ->
      tier improvement NiceJob
  | tier_stay : (-5 < improvement)%Q -> (improvement <= 0)%Q ->
      tier improvement StayConsistent
  | tier_dont_worry : (improvement <= -5)%Q -> tier improvement DontWorry.

End Spec.
Import Spec.

(** ** Further notions *)

Module Notions.

(** The edit distance by its recurrence.  Both strings are read from their
    last character on: [b] and [a] are a prefix of [str2] and a prefix of
    [str1], reversed. *)
Fixpoint edit_rec (b : jsstring) : jsstring -> nat :=
  match b with
  | [] => fun a => length a
  | y :: b' =>
      fix inner (a : jsstring) : nat :=
        match a with
        | [] => S (length b')
        | x :: a' =>
            if Ascii.eqb y x then edit_rec b' a'
            else Nat.min (Nat.min (edit_rec b' a' + 1) (inner a' + 1))
                         (edit_rec b' a + 1)
        end
  end.

(** The row of the prefix [b]: its distances to the prefixes of [str1] from
    [a] on, [s] being the rest of [str1]. *)
Fixpoint cells (b a s : jsstring) : list nat :=
  edit_rec b a ::
  match s with
  | [] => []
  | c :: s' => cells b (c :: a) s'
  end.

(** The grades in their order, [F] lowest. *)
Definition grade_rank (g : Grade) : nat :=
  match g with
  | F => 0 | D => 1 | D_plus => 2 | C_minus => 3 | C => 4 | C_plus => 5
  | B_minus => 6 | B => 7 | B_plus => 8 | A_minus => 9 | A => 10 | A_plus => 11
  end.

(** A report with the two texts in each other's place. *)
Definition swap_substitution (x : Substitution) : Substitution :=
  mkSubstitution (spoken x) (original x).

Definition swap_report (r : ErrorReport) : ErrorReport :=
  mkErrorReport (addedWords r) (missedWords r) (map swap_substitution (substitutions r)).

End Notions.
Import Notions.

(* ================================================================== *)
(** * Properties *)

Example split_ws_ex1 :
  split_ws (txt " a  b ") = [txt ""; txt "a"; txt "b"; txt ""].
Proof. reflexivity. Qed.

Example split_ws_ex2 : split_ws (txt "") = [txt ""].
Proof. reflexivity. Qed.

Example trim_ex : trim (txt "  hello   world  ") = txt "hello   world".
Proof. reflexivity. Qed.

(** ** Splitting and trimming *)

Section SplitFacts.

Lemma split_ws_not_nil (s : jsstring) : split_ws s <> [].
Proof.
  induction s as [|c s IH]; simpl; [discriminate|].
  destruct (is_space c).
  - destruct (starts_ws s); [assumption | discriminate].
  - destruct (split_ws s); discriminate.
Qed.

Lemma split_ws_length (s : jsstring) : 1 <= length (split_ws s).
Proof.
  pose proof (split_ws_not_nil s) as H.
  destruct (split_ws s); [contradiction | simpl; lia].
Qed.

(** The first piece is empty exactly when the string is empty or starts
    with white space. *)
Lemma split_ws_head (s : jsstring) :
  is_empty (hd [] (split_ws s)) = is_empty s || starts_ws s.
Proof.
  induction s as [|c s IH]; [reflexivity|]. simpl.
  destruct (is_space c) eqn:Hc.
  - destruct (starts_ws s) eqn:Hs; [|reflexivity].
    rewrite IH. apply orb_true_r.
  - destruct (split_ws s); reflexivity.
Qed.

Lemma ends_ws_cons (c : ascii) (s : jsstring) :
  s <> [] -> ends_ws (c :: s) = ends_ws s.
Proof. destruct s; [contradiction | reflexivity]. Qed.

Lemma ends_ws_snoc (s : jsstring) (c : ascii) : ends_ws (s ++ [c]) = is_space c.
Proof.
  induction s as [|d s IH]; [reflexivity|].
  change ((d :: s) ++ [c]) with (d :: (s ++ [c])).
  rewrite ends_ws_cons; [assumption | destruct s; discriminate].
Qed.

(** Every piece after the first is non-empty, unless the string ends with
    white space. *)
Lemma split_ws_tail (s : jsstring) :
  ends_ws s = false -> Forall (fun w => nonempty w = true) (tl (split_ws s)).
Proof.
  induction s as [|c s IH]; intros He; [constructor|].
  destruct s as [|d s'] eqn:Es.
  - simpl in *. rewrite He. constructor.
  - rewrite <- Es in *. rewrite ends_ws_cons in He by (subst; discriminate).
    specialize (IH He). simpl.
    destruct (is_space c).
    + destruct (starts_ws s) eqn:Hs; [assumption|].
      simpl. pose proof (split_ws_head s) as Hh. rewrite Hs in Hh.
      assert (is_empty s = false) by (subst; reflexivity).
      rewrite H in Hh. pose proof (split_ws_not_nil s).
      destruct (split_ws s) as [|w ws]; [contradiction|].
      simpl in *. constructor; [unfold nonempty; rewrite Hh; reflexivity | assumption].
    + destruct (split_ws s); [constructor | assumption].
Qed.

(** A string that neither is empty nor starts or ends with white space
    splits into non-empty pieces. *)
Lemma split_ws_trimmed (s : jsstring) :
  is_empty s = false -> starts_ws s = false -> ends_ws s = false ->
  Forall (fun w => nonempty w = true) (split_ws s).
Proof.
  intros H1 H2 H3.
  pose proof (split_ws_head s) as Hh. rewrite H1, H2 in Hh.
  pose proof (split_ws_tail s H3) as Ht.
  pose proof (split_ws_not_nil s).
  destruct (split_ws s) as [|w ws]; [contradiction|].
  simpl in *. constructor; [unfold nonempty; rewrite Hh; reflexivity | assumption].
Qed.

Lemma filter_all (A : Type) (p : A -> bool) (l : list A) :
  Forall (fun x => p x = true) l -> filter p l = l.
Proof.
  induction 1 as [|x l Hx _ IH]; simpl; [reflexivity|].
  rewrite Hx, IH. reflexivity.
Qed.

Lemma dropWhile_starts (s : jsstring) : starts_ws (dropWhile is_space s) = false.
Proof.
  induction s as [|c s IH]; [reflexivity|]. simpl.
  destruct (is_space c) eqn:Hc; [assumption | simpl; assumption].
Qed.

Lemma trimEnd_ends (s : jsstring) : ends_ws (trimEnd s) = false.
Proof.
  unfold trimEnd. pose proof (dropWhile_starts (rev s)) as H.
  destruct (dropWhile is_space (rev s)) as [|c r]; [reflexivity|].
  simpl in *. rewrite ends_ws_snoc. assumption.
Qed.

Lemma starts_ws_app (a b : jsstring) :
  a <> [] -> starts_ws (a ++ b) = starts_ws a.
Proof. destruct a; [contradiction | reflexivity]. Qed.

Lemma dropWhile_rev_prefix (s : jsstring) :
  exists sp, s = rev (dropWhile is_space (rev s)) ++ sp
             /\ Forall (fun c => is_space c = true) sp.
Proof.
  assert (G : forall r, exists sp, r = rev sp ++ dropWhile is_space r
                                   /\ Forall (fun c => is_space c = true) sp).
  { induction r as [|c r IH].
    - exists []. split; [reflexivity | constructor].
    - simpl. destruct (is_space c) eqn:Hc.
      + destruct IH as (sp & E & F). exists (sp ++ [c]). split.
        * rewrite rev_app_distr. simpl. f_equal. assumption.
        * apply Forall_app. split; [assumption | repeat constructor; assumption].
      + exists []. split; [reflexivity | constructor]. }
  destruct (G (rev s)) as (sp & E & F).
  exists sp. split; [|assumption].
  apply (f_equal (@rev ascii)) in E. rewrite rev_involutive, rev_app_distr, rev_involutive in E.
  assumption.
Qed.

Lemma trimEnd_starts (s : jsstring) :
  starts_ws s = false -> starts_ws (trimEnd s) = false.
Proof.
  intros H. destruct (dropWhile_rev_prefix s) as (sp & E & _).
  fold (trimEnd s) in E.
  destruct (trimEnd s) as [|c r] eqn:Et; [reflexivity|].
  rewrite E in H. simpl in *. assumption.
Qed.

Lemma trim_starts (s : jsstring) : starts_ws (trim s) = false.
Proof. apply trimEnd_starts, dropWhile_starts. Qed.

Lemma trim_ends (s : jsstring) : ends_ws (trim s) = false.
Proof. apply trimEnd_ends. Qed.

Lemma split_ws_snoc_space (s : jsstring) (c : ascii) :
  is_space c = true ->
  split_ws (s ++ [c]) = if ends_ws s then split_ws s else split_ws s ++ [[]].
Proof.
  intros Hc. induction s as [|d s IH].
  - simpl. rewrite Hc. reflexivity.
  - destruct s as [|e s'] eqn:Es.
    + simpl. rewrite Hc. destruct (is_space d); reflexivity.
    + rewrite <- Es in *.
      assert (Hne : s <> []) by (subst; discriminate).
      rewrite ends_ws_cons by assumption.
      change ((d :: s) ++ [c]) with (d :: (s ++ [c])).
      cbn [split_ws]. rewrite starts_ws_app by assumption. rewrite IH.
      destruct (is_space d), (starts_ws s), (ends_ws s); try reflexivity.
      * pose proof (split_ws_not_nil s).
        destruct (split_ws s); [contradiction | reflexivity].
      * pose proof (split_ws_not_nil s).
        destruct (split_ws s); [contradiction | reflexivity].
Qed.

Lemma tokens_cons_space (c : ascii) (s : jsstring) :
  is_space c = true -> tokens (c :: s) = tokens s.
Proof.
  intros Hc. unfold tokens. simpl. rewrite Hc.
  destruct (starts_ws s); reflexivity.
Qed.

Lemma tokens_snoc_space (s : jsstring) (c : ascii) :
  is_space c = true -> tokens (s ++ [c]) = tokens s.
Proof.
  intros Hc. unfold tokens. rewrite split_ws_snoc_space by assumption.
  destruct (ends_ws s); [reflexivity|].
  rewrite filter_app. simpl. apply app_nil_r.
Qed.

Lemma tokens_app_spaces (s sp : jsstring) :
  Forall (fun c => is_space c = true) sp -> tokens (s ++ sp) = tokens s.
Proof.
  intros F. revert s. induction F as [|c sp Hc _ IH]; intros s.
  - rewrite app_nil_r. reflexivity.
  - change (c :: sp) with ([c] ++ sp). rewrite app_assoc, IH.
    apply tokens_snoc_space. assumption.
Qed.

Lemma tokens_trimStart (s : jsstring) : tokens (trimStart s) = tokens s.
Proof.
  unfold trimStart. induction s as [|c s IH]; [reflexivity|]. simpl.
  destruct (is_space c) eqn:Hc; [|reflexivity].
  rewrite IH. symmetry. apply tokens_cons_space. assumption.
Qed.

Lemma tokens_trimEnd (s : jsstring) : tokens (trimEnd s) = tokens s.
Proof.
  destruct (dropWhile_rev_prefix s) as (sp & E & F). fold (trimEnd s) in E.
  rewrite E at 2. symmetry. apply tokens_app_spaces. assumption.
Qed.

Lemma tokens_trim (s : jsstring) : tokens (trim s) = tokens s.
Proof. unfold trim. rewrite tokens_trimEnd. apply tokens_trimStart. Qed.

(** What [text.trim().split(/\s+/)] is: the words of the text, or the one
    empty string when the text has no word. *)
Lemma split_ws_trim (s : jsstring) :
  split_ws (trim s) = if blank s then [[]] else tokens s.
Proof.
  unfold blank. destruct (is_empty (trim s)) eqn:E.
  - destruct (trim s); [reflexivity | discriminate].
  - rewrite <- tokens_trim. unfold tokens. symmetry. apply filter_all.
    apply split_ws_trimmed; [assumption | apply trim_starts | apply trim_ends].
Qed.

Lemma blank_tokens (s : jsstring) : blank s = true <-> tokens s = [].
Proof.
  pose proof (split_ws_trim s) as H. split; intros B.
  - rewrite <- tokens_trim. unfold blank in B.
    destruct (trim s); [reflexivity | discriminate].
  - destruct (blank s) eqn:E; [reflexivity|].
    rewrite B in H. elim (split_ws_not_nil _ H).
Qed.

Lemma tokens_nonempty (s : jsstring) :
  Forall (fun w => nonempty w = true) (tokens s).
Proof.
  unfold tokens. apply Forall_forall. intros w Hw.
  apply filter_In in Hw. tauto.
Qed.

Lemma blank_empty (s : jsstring) : is_empty s = true -> blank s = true.
Proof. destruct s; [reflexivity | discriminate]. Qed.

(** Lower-casing moves no white space. *)
Lemma is_space_lower (c : ascii) : is_space (lower_char c) = is_space c.
Proof. destruct c as [[] [] [] [] [] [] [] []]; reflexivity. Qed.

Lemma starts_ws_lower (s : jsstring) : starts_ws (toLowerCase s) = starts_ws s.
Proof. destruct s; [reflexivity | apply is_space_lower]. Qed.

Lemma split_ws_lower (s : jsstring) :
  split_ws (toLowerCase s) = map toLowerCase (split_ws s).
Proof.
  induction s as [|c s IH]; [reflexivity|].
  cbn [toLowerCase map split_ws]. fold (toLowerCase s).
  rewrite is_space_lower, starts_ws_lower, IH.
  destruct (is_space c).
  - destruct (starts_ws s); reflexivity.
  - destruct (split_ws s); reflexivity.
Qed.

Lemma dropWhile_lower (s : jsstring) :
  dropWhile is_space (toLowerCase s) = toLowerCase (dropWhile is_space s).
Proof.
  induction s as [|c s IH]; [reflexivity|].
  cbn [toLowerCase map dropWhile]. fold (toLowerCase s).
  rewrite is_space_lower. destruct (is_space c); [assumption | reflexivity].
Qed.

Lemma trim_lower (s : jsstring) : trim (toLowerCase s) = toLowerCase (trim s).
Proof.
  unfold trim, trimEnd, trimStart, toLowerCase.
  rewrite dropWhile_lower. unfold toLowerCase.
  rewrite <- map_rev, dropWhile_lower. unfold toLowerCase.
  rewrite map_rev. reflexivity.
Qed.

Lemma is_empty_lower (s : jsstring) : is_empty (toLowerCase s) = is_empty s.
Proof. destruct s; reflexivity. Qed.

Lemma blank_lower (s : jsstring) : blank (toLowerCase s) = blank s.
Proof. unfold blank. rewrite trim_lower. apply is_empty_lower. Qed.




(** The number of words does not depend on letter case. *)
Lemma split_trim_length_lower (s : jsstring) :
  length (split_ws (trim (toLowerCase s))) = length (split_ws (trim s)).
Proof. rewrite trim_lower, split_ws_lower. apply length_map. Qed.

End SplitFacts.

(** ** Rounding and clamping *)

Section NumberFacts.

Lemma Math_round_comp (x y : Q) : (x == y)%Q -> Math_round x = Math_round y.
Proof. intros E. unfold Math_round. rewrite E. reflexivity. Qed.

Lemma Math_round_mono (x y : Q) : (x <= y)%Q -> (Math_round x <= Math_round y)%Z.
Proof.
  intros L. unfold Math_round. apply Qfloor_resp_le.
  apply Qplus_le_l. assumption.
Qed.

Lemma Math_round_Z (k : Z) : Math_round (inject_Z k) = k.
Proof.
  unfold Math_round.
  pose proof (Qfloor_le (inject_Z k + (1 # 2))) as L.
  pose proof (Qlt_floor (inject_Z k + (1 # 2))) as U.
  set (f := Qfloor (inject_Z k + (1 # 2))) in *.
  rewrite inject_Z_plus in U.
  change (inject_Z 1) with 1%Q in U.
  assert (f < k + 1)%Z
    by (rewrite Zlt_Qlt, inject_Z_plus; change (inject_Z 1) with 1%Q; lra).
  assert (k < f + 1)%Z
    by (rewrite Zlt_Qlt, inject_Z_plus; change (inject_Z 1) with 1%Q; lra).
  lia.
Qed.

(** Clamping to integer bounds and rounding commute. *)
Lemma round_clamp (lo hi : Z) (x : Q) :
  (lo <= hi)%Z ->
  Z.max lo (Z.min hi (Math_round x))
  = Math_round (Qclamp (inject_Z lo) (inject_Z hi) x).
Proof.
  intros Hlh. unfold Qclamp.
  pose proof (Math_round_Z lo) as Rlo. pose proof (Math_round_Z hi) as Rhi.
  destruct (Qlt_le_dec (inject_Z hi) x) as [H|H].
  - assert (E : (Qmax (inject_Z lo) (Qmin (inject_Z hi) x) == inject_Z hi)%Q).
    { rewrite (Q.min_l (inject_Z hi) x) by (apply Qlt_le_weak, H).
      apply Q.max_r. rewrite <- Zle_Qle. assumption. }
    rewrite (Math_round_comp E), Rhi.
    pose proof (Math_round_mono (Qlt_le_weak _ _ H)). lia.
  - pose proof (Math_round_mono H).
    destruct (Qlt_le_dec x (inject_Z lo)) as [G|G].
    + assert (E : (Qmax (inject_Z lo) (Qmin (inject_Z hi) x) == inject_Z lo)%Q).
      { rewrite (Q.min_r (inject_Z hi) x) by assumption.
        apply Q.max_l, Qlt_le_weak, G. }
      rewrite (Math_round_comp E), Rlo.
      pose proof (Math_round_mono (Qlt_le_weak _ _ G)). lia.
    + assert (E : (Qmax (inject_Z lo) (Qmin (inject_Z hi) x) == x)%Q).
      { rewrite (Q.min_r (inject_Z hi) x) by assumption.
        apply Q.max_r, G. }
      rewrite (Math_round_comp E).
      pose proof (Math_round_mono G). lia.
Qed.

Lemma num_pos (n : nat) : 1 <= n -> (0 < num n)%Q.
Proof.
  intros H. unfold num. change 0%Q with (inject_Z 0).
  rewrite <- Zlt_Qlt. lia.
Qed.

Lemma num_nonneg (n : nat) : (0 <= num n)%Q.
Proof. unfold num. change 0%Q with (inject_Z 0). rewrite <- Zle_Qle. lia. Qed.

Lemma num_nonzero (n : nat) : 1 <= n -> ~ (num n == 0)%Q.
Proof. intros H E. pose proof (num_pos H) as P. rewrite E in P. discriminate. Qed.

End NumberFacts.

(** ** Loops over indices *)

Section LoopFacts.

Variable A : Type.

Lemma fold_left_ext (B : Type) (f g : A -> B -> A) (l : list B) (a : A) :
  (forall x y, f x y = g x y) -> fold_left f l a = fold_left g l a.
Proof.
  intros E. revert a. induction l as [|y l IH]; intros a; simpl; [reflexivity|].
  rewrite E. apply IH.
Qed.

Lemma fold_seq_shift (f : A -> nat -> A) (n k : nat) (a : A) :
  fold_left f (seq (S k) n) a = fold_left (fun x i => f x (S i)) (seq k n) a.
Proof.
  revert k a. induction n as [|n IH]; intros k a; simpl; [reflexivity|].
  apply IH.
Qed.

(** A loop that reads two arrays at the indices below both lengths visits
    the pairs of [combine]. *)
Lemma fold_index_combine (g : A -> jsstring -> jsstring -> A) (U T : list jsstring) (a : A) :
  fold_left
    (fun x i =>
       match nth_error U i, nth_error T i with
       | Some u, Some t => g x u t
       | _, _ => x
       end)
    (seq 0 (Nat.min (length U) (length T))) a
  = fold_left (fun x p => g x (fst p) (snd p)) (combine U T) a.
Proof.
  revert T a. induction U as [|u U IH]; intros T a; [reflexivity|].
  destruct T as [|t T]; [reflexivity|].
  cbn [length Nat.min seq combine fold_left nth_error fst snd].
  rewrite fold_seq_shift. cbn [nth_error]. apply IH.
Qed.

End LoopFacts.

(** ** The edit distance *)

Section EditDistance.

Lemma fill_row_bounded (ci : ascii) (str1 : jsstring) :
  forall prev left i k,
    row_bounded i k prev -> left <= Nat.max (S i) k ->
    row_bounded (S i) (S k) (fill_row ci str1 prev left).
Proof.
  induction str1 as [|cj str1 IH]; intros prev left i k Hp Hl j v Hj.
  - destruct j; discriminate.
  - destruct prev as [|diag [|up rest]]; try (destruct j; discriminate).
    cbn [fill_row] in Hj.
    pose proof (Hp 0 diag eq_refl) as Hd.
    set (cell := if Ascii.eqb ci cj then diag
                 else Nat.min (Nat.min (diag + 1) (left + 1)) (up + 1)) in *.
    assert (Hc : cell <= Nat.max (S i) (S k)).
    { subst cell. destruct (Ascii.eqb ci cj); lia. }
    destruct j as [|j].
    + injection Hj as <-. lia.
    + cbn [nth_error] in Hj.
      apply (IH (up :: rest) cell i (S k)) in Hj; [lia| |assumption].
      intros j' v' Hj'. specialize (Hp (S j') v' Hj'). lia.
Qed.

Lemma fill_row_length (ci : ascii) (str1 : jsstring) :
  forall prev left, length (fill_row ci str1 prev left) <= length str1.
Proof.
  induction str1 as [|cj str1 IH]; intros prev left; [destruct prev; simpl; lia|].
  destruct prev as [|diag [|up rest]]; cbn [fill_row length]; try lia.
  specialize (IH (up :: rest)
                (if Ascii.eqb ci cj then diag
                 else Nat.min (Nat.min (diag + 1) (left + 1)) (up + 1))).
  lia.
Qed.

Lemma fill_rows_bounded (str1 str2 : jsstring) :
  forall i prev,
    row_bounded i 0 prev -> length prev <= S (length str1) ->
    row_bounded (i + length str2) 0 (fill_rows str1 str2 i prev)
    /\ length (fill_rows str1 str2 i prev) <= S (length str1).
Proof.
  induction str2 as [|ci str2 IH]; intros i prev Hp Hl.
  - cbn [fill_rows length]. rewrite Nat.add_0_r. split; assumption.
  - cbn [fill_rows length]. rewrite <- Nat.add_succ_comm. apply IH.
    + intros j v Hj. destruct j as [|j].
      * injection Hj as <-. lia.
      * cbn [nth_error] in Hj.
        apply (@fill_row_bounded ci str1 prev (S i) i 0) in Hj;
          [lia | assumption | lia].
    + cbn [length]. pose proof (fill_row_length ci str1 prev (S i)). lia.
Qed.

(** The distance is at most the length of the longer string. *)
Lemma levenshteinDistance_bound (str1 str2 : jsstring) :
  levenshteinDistance str1 str2 <= Nat.max (length str1) (length str2).
Proof.
  unfold levenshteinDistance.
  destruct (@fill_rows_bounded str1 str2 0 (seq 0 (S (length str1)))) as [B L].
  - intros j v Hj. pose proof (nth_error_Some (seq 0 (S (length str1))) j) as S1.
    rewrite Hj in S1. rewrite length_seq in S1.
    assert (j < S (length str1)) by (apply S1; discriminate).
    rewrite nth_error_nth' with (d := 0) in Hj by (rewrite length_seq; assumption).
    rewrite seq_nth in Hj by assumption. injection Hj as <-. lia.
  - rewrite length_seq. lia.
  - set (row := fill_rows str1 str2 0 (seq 0 (S (length str1)))) in *.
    destruct row as [|x row'] eqn:E using rev_ind; [simpl; lia|].
    rewrite last_last.
    assert (Hn : nth_error (row' ++ [x]) (length row') = Some x).
    { rewrite nth_error_app2 by lia. rewrite Nat.sub_diag. reflexivity. }
    specialize (B _ _ Hn). rewrite length_app in L. simpl in L. lia.
Qed.

(** The similarity of two words is a number from 0 to 1. *)
Lemma calculateStringSimilarity_range (str1 str2 : jsstring) :
  (0 <= calculateStringSimilarity str1 str2 <= 1)%Q.
Proof.
  unfold calculateStringSimilarity.
  set (longer := if length str2 <? length str1 then str1 else str2).
  set (shorter := if length str2 <? length str1 then str2 else str1).
  destruct (length longer =? 0) eqn:E0; [split; discriminate|].
  apply Nat.eqb_neq in E0.
  assert (Hd : levenshteinDistance longer shorter <= length longer).
  { pose proof (levenshteinDistance_bound longer shorter) as B.
    subst longer shorter. destruct (length str2 <? length str1) eqn:C.
    - apply Nat.ltb_lt in C. lia.
    - apply Nat.ltb_ge in C. lia. }
  assert (P : (0 < num (length longer))%Q) by (apply num_pos; lia).
  assert (D0 : (0 <= num (levenshteinDistance longer shorter))%Q) by apply num_nonneg.
  assert (D1 : (num (levenshteinDistance longer shorter) <= num (length longer))%Q).
  { unfold num. rewrite <- Zle_Qle. lia. }
  split.
  - apply Qle_shift_div_l; [assumption|]. lra.
  - apply Qle_shift_div_r; [assumption|]. lra.
Qed.

End EditDistance.

(** ** The score in terms of the word arrays *)

Section ScoreFacts.

Lemma word_array_length (s : jsstring) : 1 <= length (word_array s).
Proof. apply split_ws_length. Qed.

(** A text with a word is split into its words; a text without one into
    the single empty string. *)
Lemma word_array_words (s : jsstring) :
  word_array s = if blank s then [[]] else words_of s.
Proof.
  unfold word_array, words_of. rewrite split_ws_trim, blank_lower. reflexivity.
Qed.

Lemma matches_fold (U T : list jsstring) (a : Q) :
  (fold_left (match_step U T) (seq 0 (Nat.min (length U) (length T))) a
   == a + credit_sum U T)%Q.
Proof.
  unfold match_step.
  rewrite (fold_index_combine
             (fun x u t => if list_eq_dec ascii_dec u t then (x + 1)%Q
                           else (x + calculateStringSimilarity u t)%Q)).
  revert T a. induction U as [|u U IH]; intros T a.
  - simpl. ring.
  - destruct T as [|t T]; [simpl; ring|].
    cbn [combine fold_left fst snd credit_sum]. rewrite IH.
    unfold word_credit. destruct (list_eq_dec ascii_dec u t); ring.
Qed.

Lemma run_length_le_longest (l : list bool) : run_length l <= longest_run l.
Proof. destruct l; simpl; lia. Qed.

Lemma order_fold (U T : list jsstring) (st : OrderState) :
  consecutiveMatches st <= maxConsecutive st ->
  maxConsecutive
    (fold_left (order_step U T) (seq 0 (Nat.min (length U) (length T))) st)
  = Nat.max (maxConsecutive st)
      (Nat.max (consecutiveMatches st + run_length (positional_matches U T))
               (longest_run (positional_matches U T))).
Proof.
  unfold order_step.
  rewrite (fold_index_combine
             (fun st u t =>
                if list_eq_dec ascii_dec u t then
                  mkOrderState (consecutiveMatches st + 1)
                    (Nat.max (maxConsecutive st) (consecutiveMatches st + 1))
                else mkOrderState 0 (maxConsecutive st))).
  revert T st. induction U as [|u U IH]; intros T st Hst.
  - simpl. lia.
  - destruct T as [|t T]; [simpl; lia|].
    cbn [combine fold_left fst snd positional_matches].
    pose proof (run_length_le_longest (positional_matches U T)) as Hr.
    destruct (list_eq_dec ascii_dec u t).
    + rewrite IH by (simpl; lia).
      cbn [run_length longest_run consecutiveMatches maxConsecutive]. lia.
    + rewrite IH by (simpl; lia).
      cbn [run_length longest_run consecutiveMatches maxConsecutive]. lia.
Qed.

Lemma comparePhonemes_words (u t : jsstring) :
  is_empty u = false -> is_empty t = false ->
  comparePhonemes u t = Math_round (base_similarity (word_array u) (word_array t)).
Proof.
  intros Hu Ht. unfold comparePhonemes. rewrite Hu, Ht. cbn [orb].
  fold (word_array u) (word_array t).
  apply Math_round_comp. unfold base_similarity.
  rewrite matches_fold. rewrite Qplus_0_l. reflexivity.
Qed.

Lemma wordOrderBonus_words (u t : jsstring) :
  calculateWordOrderBonus u t = order_bonus (word_array u) (word_array t).
Proof.
  unfold calculateWordOrderBonus, order_bonus.
  fold (word_array u) (word_array t).
  rewrite order_fold by (simpl; lia). simpl.
  pose proof (run_length_le_longest
                (positional_matches (word_array u) (word_array t))).
  rewrite Nat.max_r by assumption. reflexivity.
Qed.

Lemma lengthPenalty_words (u t : jsstring) :
  calculateLengthPenalty u t = length_penalty (word_array u) (word_array t).
Proof.
  unfold calculateLengthPenalty, length_penalty, word_array.
  rewrite !split_trim_length_lower.
  pose proof (split_ws_length (trim u)).
  destruct (Nat.max (length (split_ws (trim u))) (length (split_ws (trim t))) =? 0) eqn:E.
  - apply Nat.eqb_eq in E. lia.
  - reflexivity.
Qed.

(** [compareTexts] on two non-empty strings, through their word arrays. *)
Lemma compareTexts_words (u t : jsstring) :
  is_empty u = false -> is_empty t = false ->
  compareTexts u t
  = final_score
      (inject_Z (Math_round (base_similarity (word_array u) (word_array t))))
      (order_bonus (word_array u) (word_array t))
      (length_penalty (word_array u) (word_array t)).
Proof.
  intros Hu Ht. unfold compareTexts. rewrite Hu, Ht. cbn [orb].
  rewrite comparePhonemes_words, wordOrderBonus_words, lengthPenalty_words by assumption.
  unfold final_score. apply (round_clamp (lo := 0) (hi := 100)). lia.
Qed.

Lemma final_score_comp (b b' o o' p p' : Q) :
  (b == b')%Q -> (o == o')%Q -> (p == p')%Q -> final_score b o p = final_score b' o' p'.
Proof.
  intros Eb Eo Ep. unfold final_score.
  rewrite <- !(round_clamp (lo := 0) (hi := 100)) by lia.
  f_equal. f_equal. apply Math_round_comp. rewrite Eb, Eo, Ep. reflexivity.
Qed.

Lemma final_score_bounds (b o p : Q) : (0 <= final_score b o p <= 100)%Z.
Proof.
  unfold final_score. rewrite <- (round_clamp (lo := 0) (hi := 100)) by lia. lia.
Qed.

(** The score is an integer from 0 to 100, whatever the texts. *)
Lemma compareTexts_range (u t : jsstring) : (0 <= compareTexts u t <= 100)%Z.
Proof. unfold compareTexts. destruct (is_empty u || is_empty t); lia. Qed.

(** Letter case never changes the score. *)
Lemma compareTexts_case_insensitive (u u' t t' : jsstring) :
  toLowerCase u = toLowerCase u' -> toLowerCase t = toLowerCase t' ->
  compareTexts u t = compareTexts u' t'.
Proof.
  intros Eu Et.
  assert (Hu : is_empty u = is_empty u')
    by (rewrite <- (is_empty_lower u), Eu; apply is_empty_lower).
  assert (Ht : is_empty t = is_empty t')
    by (rewrite <- (is_empty_lower t), Et; apply is_empty_lower).
  destruct (is_empty u) eqn:Bu.
  { unfold compareTexts. rewrite Bu, <- Hu. reflexivity. }
  destruct (is_empty t) eqn:Bt.
  { unfold compareTexts. rewrite Bu, Bt, <- Hu, <- Ht. reflexivity. }
  rewrite !compareTexts_words by congruence.
  unfold word_array. rewrite Eu, Et. reflexivity.
Qed.

End ScoreFacts.

(** ** Identical texts *)

Section IdenticalTexts.

Lemma credit_sum_same (W : list jsstring) : (credit_sum W W == num (length W))%Q.
Proof.
  induction W as [|w W IH].
  - reflexivity.
  - cbn [credit_sum length]. rewrite IH. unfold word_credit.
    destruct (list_eq_dec ascii_dec w w) as [_|N]; [|contradiction].
    unfold num. rewrite Nat2Z.inj_succ, <- Z.add_1_l, inject_Z_plus. reflexivity.
Qed.

Lemma longest_run_same (W : list jsstring) :
  run_length (positional_matches W W) = length W
  /\ longest_run (positional_matches W W) = length W.
Proof.
  induction W as [|w W [IH1 IH2]]; [split; reflexivity|].
  cbn [positional_matches].
  destruct (list_eq_dec ascii_dec w w) as [_|N]; [|contradiction].
  cbn [run_length longest_run length]. rewrite IH1, IH2. split; lia.
Qed.

Lemma base_similarity_same (W : list jsstring) :
  1 <= length W -> (base_similarity W W == 100)%Q.
Proof.
  intros H. unfold base_similarity. rewrite credit_sum_same, Nat.max_id.
  field. apply num_nonzero. assumption.
Qed.

Lemma order_bonus_same (W : list jsstring) :
  1 <= length W -> (order_bonus W W == 20)%Q.
Proof.
  intros H. unfold order_bonus. destruct (longest_run_same W) as [_ E].
  rewrite E. field. apply num_nonzero. assumption.
Qed.

Lemma length_penalty_same_length (U T : list jsstring) :
  length U = length T -> (length_penalty U T == 0)%Q.
Proof.
  intros E. unfold length_penalty. rewrite E, Z.sub_diag. simpl Z.abs.
  unfold Qdiv. ring.
Qed.

(** Two equal word arrays score 74: the base 100 with weight 0.7 and the
    whole order bonus 20 with weight 0.2. *)
Lemma compareTexts_same_words (u t : jsstring) :
  is_empty u = false -> is_empty t = false -> word_array u = word_array t ->
  compareTexts u t = 74%Z /\ comparePhonemes u t = 100%Z.
Proof.
  intros Hu Ht E.
  pose proof (word_array_length t) as L.
  assert (B : Math_round (base_similarity (word_array t) (word_array t)) = 100%Z).
  { rewrite (Math_round_comp (base_similarity_same _ L)). reflexivity. }
  split.
  - rewrite compareTexts_words by assumption. rewrite E, B.
    rewrite (final_score_comp (b' := 100) (o' := 20) (p' := 0)).
    + reflexivity.
    + reflexivity.
    + apply order_bonus_same, L.
    + apply length_penalty_same_length. reflexivity.
  - rewrite comparePhonemes_words by assumption. rewrite E. assumption.
Qed.

Lemma nonblank_nonempty (s : jsstring) : blank s = false -> is_empty s = false.
Proof.
  intros B. destruct (is_empty s) eqn:E; [|reflexivity].
  rewrite (blank_empty s E) in B. discriminate.
Qed.

End IdenticalTexts.

(** C1, as the code has it.  Two texts that are identical up to letter
    case, and not empty after trimming, score 74 with [compareTexts]: the
    base similarity [comparePhonemes] is 100 and enters with weight 0.7, the
    order bonus is its maximum 20 and enters with weight 0.2, and there is
    no length penalty.  So letter case alone never changes the score, and
    74, not 100, is the score of a text against itself. *)
Theorem compareTexts_identical_up_to_case (u t : jsstring) :
  blank u = false ->
  toLowerCase u = toLowerCase t ->
  compareTexts u t = 74%Z /\ comparePhonemes u t = 100%Z.
Proof.
  intros B E.
  assert (Hu : is_empty u = false) by (apply nonblank_nonempty, B).
  assert (Ht : is_empty t = false).
  { rewrite <- is_empty_lower, <- E, is_empty_lower. assumption. }
  apply compareTexts_same_words; try assumption.
  unfold word_array. rewrite E. reflexivity.
Qed.

Lemma compareTexts_identical_up_to_case_witness :
  compareTexts (txt "Hello World") (txt "hello world") = 74%Z
  /\ comparePhonemes (txt "Hello World") (txt "hello world") = 100%Z.
Proof.
  apply (@compareTexts_identical_up_to_case (txt "Hello World") (txt "hello world"));
    reflexivity.
Defined.

(** C1 as stated fails: a text that is not empty after trimming does not
    score 100 against itself. *)
Lemma compareTexts_identical_not_100 :
  blank (txt "hello") = false
  /\ compareTexts (txt "hello") (txt "hello") <> 100%Z.
Proof. split; [reflexivity | vm_compute; discriminate]. Qed.

(** ** Texts without a word *)

Section BlankTexts.

Lemma levenshteinDistance_empty (w : jsstring) : levenshteinDistance w [] = length w.
Proof.
  unfold levenshteinDistance. cbn [fill_rows].
  rewrite seq_S, last_last. reflexivity.
Qed.

Lemma similarity_empty_l (w : jsstring) :
  w <> [] -> (calculateStringSimilarity [] w == 0)%Q.
Proof.
  intros N. unfold calculateStringSimilarity.
  destruct w as [|c w]; [contradiction|].
  cbn [length Nat.ltb Nat.leb Nat.eqb]. rewrite levenshteinDistance_empty.
  cbn [length]. unfold Qdiv. ring.
Qed.

Lemma similarity_empty_r (w : jsstring) :
  w <> [] -> (calculateStringSimilarity w [] == 0)%Q.
Proof.
  intros N. unfold calculateStringSimilarity.
  destruct w as [|c w]; [contradiction|].
  cbn [length Nat.ltb Nat.leb Nat.eqb]. rewrite levenshteinDistance_empty.
  cbn [length]. unfold Qdiv. ring.
Qed.

Lemma credit_sum_nil_r (U : list jsstring) : credit_sum U [] = 0%Q.
Proof. destruct U; reflexivity. Qed.

Lemma positional_matches_nil_r (U : list jsstring) : positional_matches U [] = [].
Proof. destruct U; reflexivity. Qed.

Lemma length_penalty_nonneg (U T : list jsstring) : (0 <= length_penalty U T)%Q.
Proof.
  unfold length_penalty, Qdiv.
  apply Qmult_le_0_compat; [|discriminate].
  apply Qmult_le_0_compat.
  - change 0%Q with (inject_Z 0). rewrite <- Zle_Qle. apply Z.abs_nonneg.
  - apply Qinv_le_0_compat, num_nonneg.
Qed.

Lemma final_score_nonpos (b o p : Q) :
  (b * 0.7 + o * 0.2 - p * 0.1 <= 0)%Q -> final_score b o p = 0%Z.
Proof.
  intros H. unfold final_score.
  rewrite <- (round_clamp (lo := 0) (hi := 100)) by lia.
  pose proof (Math_round_mono H) as M.
  change (Math_round 0) with 0%Z in M. lia.
Qed.

Lemma words_head_nonempty (s : jsstring) :
  blank s = false ->
  exists w W, w <> [] /\ word_array s = w :: W.
Proof.
  intros B. rewrite word_array_words, B.
  pose proof (tokens_nonempty (toLowerCase s)) as F.
  assert (N : words_of s <> []).
  { intros E. apply blank_tokens in E. rewrite blank_lower, B in E. discriminate. }
  unfold words_of in *. destruct (tokens (toLowerCase s)) as [|w W]; [contradiction|].
  exists w, W. split; [|reflexivity].
  inversion F as [|? ? Hw _]; subst. intros E. subst w. discriminate.
Qed.

Lemma word_array_blank (s : jsstring) : blank s = true -> word_array s = [[]].
Proof. intros B. rewrite word_array_words, B. reflexivity. Qed.

(** A text without a word against a text with one scores 0. *)
Lemma compareTexts_one_blank (u t : jsstring) :
  is_empty u = false -> is_empty t = false -> blank u <> blank t ->
  compareTexts u t = 0%Z.
Proof.
  intros Hu Ht D. rewrite compareTexts_words by assumption.
  destruct (blank u) eqn:Bu, (blank t) eqn:Bt; try contradiction.
  - destruct (words_head_nonempty t Bt) as (w & W & Nw & Ew).
    rewrite (word_array_blank u Bu), Ew.
    assert (Eb : (base_similarity [[]] (w :: W) == 0)%Q).
    { unfold base_similarity. cbn [credit_sum]. unfold word_credit.
      destruct (list_eq_dec ascii_dec [] w) as [E|_]; [symmetry in E; contradiction|].
      rewrite similarity_empty_l by assumption. unfold Qdiv. ring. }
    rewrite (Math_round_comp Eb). change (Math_round 0) with 0%Z.
    assert (Eo : (order_bonus [[]] (w :: W) == 0)%Q).
    { unfold order_bonus. cbn [positional_matches].
      destruct (list_eq_dec ascii_dec [] w) as [E|_]; [symmetry in E; contradiction|].
      cbn [run_length longest_run Nat.max]. unfold Qdiv, num. simpl Z.of_nat. ring. }
    apply final_score_nonpos. rewrite Eo.
    pose proof (length_penalty_nonneg [[]] (w :: W)). change (inject_Z 0) with 0%Q. lra.
  - destruct (words_head_nonempty u Bu) as (w & W & Nw & Ew).
    rewrite (word_array_blank t Bt), Ew.
    assert (Eb : (base_similarity (w :: W) [[]] == 0)%Q).
    { unfold base_similarity. cbn [credit_sum]. rewrite credit_sum_nil_r.
      unfold word_credit.
      destruct (list_eq_dec ascii_dec w []) as [E|_]; [contradiction|].
      rewrite similarity_empty_r by assumption. unfold Qdiv. ring. }
    rewrite (Math_round_comp Eb). change (Math_round 0) with 0%Z.
    assert (Eo : (order_bonus (w :: W) [[]] == 0)%Q).
    { unfold order_bonus. cbn [positional_matches].
      rewrite positional_matches_nil_r.
      destruct (list_eq_dec ascii_dec w []) as [E|_]; [contradiction|].
      cbn [run_length longest_run Nat.max]. unfold Qdiv, num. simpl Z.of_nat. ring. }
    apply final_score_nonpos. rewrite Eo.
    pose proof (length_penalty_nonneg (w :: W) [[]]). change (inject_Z 0) with 0%Q. lra.
Qed.

Lemma analyzeErrors_words (u t : jsstring) :
  analyzeErrors u t
  = fold_left (error_step (word_array u) (word_array t))
      (seq 0 (Nat.max (length (word_array u)) (length (word_array t))))
      (mkErrorReport [] [] []).
Proof. reflexivity. Qed.

End BlankTexts.

(** C3, as the code has it.  When an argument of [compareTexts] is empty
    after trimming, the score is 0 if an argument is the empty string or if
    the other argument has a word; two non-empty strings of white space
    only count as identical texts and score 74.  When both texts are empty
    after trimming, in particular for two empty strings, [analyzeErrors]
    reports no missed word, no added word and no substitution. *)
Theorem compareTexts_blank_input (u t : jsstring) :
  blank u || blank t = true ->
  compareTexts u t
  = (if is_empty u || is_empty t then 0
     else if blank u && blank t then 74 else 0)%Z
  /\ (if blank u && blank t then analyzeErrors u t else mkErrorReport [] [] [])
     = mkErrorReport [] [] [].
Proof.
  intros B. split.
  - destruct (is_empty u) eqn:Hu; [unfold compareTexts; rewrite Hu; reflexivity|].
    destruct (is_empty t) eqn:Ht; [unfold compareTexts; rewrite Hu, Ht; reflexivity|].
    cbn [orb].
    destruct (blank u) eqn:Bu, (blank t) eqn:Bt; cbn [andb]; try discriminate.
    + apply compareTexts_same_words; try assumption.
      rewrite !word_array_blank by assumption. reflexivity.
    + apply compareTexts_one_blank; try assumption. rewrite Bu, Bt. discriminate.
    + apply compareTexts_one_blank; try assumption. rewrite Bu, Bt. discriminate.
  - destruct (blank u) eqn:Bu, (blank t) eqn:Bt; cbn [andb]; try reflexivity.
    rewrite analyzeErrors_words, !word_array_blank by assumption. reflexivity.
Qed.

Lemma compareTexts_blank_input_witness :
  compareTexts (txt "") (txt "") = 0%Z
  /\ analyzeErrors (txt "") (txt "") = mkErrorReport [] [] [].
Proof.
  apply (@compareTexts_blank_input (txt "") (txt "")). reflexivity.
Defined.

(** C3 as stated fails: both arguments are empty after trimming and the
    score is not 0. *)
Lemma compareTexts_whitespace_only_not_0 :
  blank (txt " ") = true /\ compareTexts (txt " ") (txt " ") <> 0%Z.
Proof. split; [reflexivity | vm_compute; discriminate]. Qed.

Example compareTexts_empty_examples :
  compareTexts (txt "") (txt "") = 0%Z
  /\ compareTexts (txt "") (txt "x") = 0%Z
  /\ compareTexts (txt "x") (txt "") = 0%Z
  /\ analyzeErrors (txt "") (txt "") = mkErrorReport [] [] [].
Proof. repeat split. Qed.

(** ** White-space layout *)

Section Layout.




Lemma blank_of_tokens (s s' : jsstring) : tokens s = tokens s' -> blank s = blank s'.
Proof.
  intros E. destruct (blank s) eqn:B, (blank s') eqn:B'; try reflexivity.
  - apply blank_tokens in B. rewrite E in B. apply blank_tokens in B. congruence.
  - apply blank_tokens in B'. rewrite <- E in B'. apply blank_tokens in B'. congruence.
Qed.



End Layout.




(** ** The scoring formula *)

Section Formula.

Lemma run_length_prefix (l : list bool) (j : nat) :
  j < run_length l -> nth j l false = true.
Proof.
  revert j. induction l as [|b l IH]; intros j H; [simpl in H; lia|].
  destruct b; [|simpl in H; lia].
  destruct j as [|j]; [reflexivity|]. simpl in *. apply IH. lia.
Qed.

Lemma run_length_upper (l : list bool) (k : nat) :
  (forall j, j < k -> nth j l false = true) -> k <= run_length l.
Proof.
  revert k. induction l as [|b l IH]; intros k H.
  - destruct k as [|k]; [lia|]. specialize (H 0 ltac:(lia)). discriminate.
  - destruct k as [|k]; [lia|].
    pose proof (H 0 ltac:(lia)) as H0. simpl in H0. subst b. simpl.
    apply le_n_S, IH. intros j Hj. apply (H (S j)). lia.
Qed.

(** [longest_run] is the length of a run of consecutive matches, and no
    run of consecutive matches is longer. *)
Lemma longest_run_spec (l : list bool) :
  (exists i, forall j, j < longest_run l -> nth (i + j) l false = true)
  /\ (forall i k, (forall j, j < k -> nth (i + j) l false = true) ->
                  k <= longest_run l).
Proof.
  split.
  - induction l as [|b l [i IH]]; [exists 0; simpl; intros; lia|].
    cbn [longest_run].
    destruct (Nat.max_spec (run_length (b :: l)) (longest_run l)) as [[_ E]|[_ E]];
      rewrite E.
    + exists (S i). intros j Hj. apply IH. assumption.
    + exists 0. intros j Hj. apply run_length_prefix. assumption.
  - induction l as [|b l IH]; intros i k H.
    + destruct k as [|k]; [lia|]. specialize (H 0 ltac:(lia)).
      destruct (i + 0); discriminate.
    + cbn [longest_run]. destruct i as [|i].
      * pose proof (run_length_upper (b :: l) H). lia.
      * pose proof (IH i k H). lia.
Qed.

End Formula.




(** There the base similarity is 100/3: the code rounds it to 33 and
    scores 22, the formula on 100/3 itself gives 23. *)
Example compareTexts_rounding_example :
  comparePhonemes (txt "a") (txt "a b c") = 33%Z
  /\ compareTexts (txt "a") (txt "a b c") = 22%Z
  /\ score_of_exact_base (txt "a") (txt "a b c") = 23%Z.
Proof. repeat split; vm_compute; reflexivity. Qed.

(** ** The positional error analysis *)

Section ErrorAnalysis.

Lemma error_step_seen (U T : list jsstring) (r : ErrorReport) (i : nat) :
  error_step U T r i
  = match seen U i, seen T i with
    | None, Some t => mkErrorReport (missedWords r ++ [t]) (addedWords r) (substitutions r)
    | Some u, None => mkErrorReport (missedWords r) (addedWords r ++ [u]) (substitutions r)
    | Some u, Some t =>
        if list_eq_dec ascii_dec u t then r
        else mkErrorReport (missedWords r) (addedWords r)
               (substitutions r ++ [mkSubstitution t u])
    | None, None => r
    end.
Proof.
  unfold error_step, seen, same_word.
  destruct (nth_error U i) as [[|a u]|], (nth_error T i) as [[|b t]|];
    cbn [truthy the_word andb negb]; try reflexivity.
  destruct (list_eq_dec ascii_dec (a :: u) (b :: t)); reflexivity.
Qed.

(** The array that the code splits a text into, against the words of the
    text: the same list, or [[""]] against no word. *)
Lemma seen_word_array (s : jsstring) (i : nat) :
  seen (word_array s) i = nth_error (words_of s) i.
Proof.
  rewrite word_array_words. destruct (blank s) eqn:B.
  - assert (E : words_of s = []).
    { unfold words_of. apply blank_tokens. rewrite blank_lower. assumption. }
    rewrite E. unfold seen. destruct i as [|[|i]]; reflexivity.
  - unfold seen. destruct (nth_error (words_of s) i) as [w|] eqn:E; [|reflexivity].
    apply nth_error_In in E.
    pose proof (tokens_nonempty (toLowerCase s)) as F.
    rewrite Forall_forall in F. specialize (F w E).
    destruct w; [discriminate | reflexivity].
Qed.

Lemma words_le_word_array (s : jsstring) :
  length (words_of s) <= length (word_array s).
Proof.
  rewrite word_array_words. destruct (blank s) eqn:B; [|lia].
  assert (E : words_of s = []).
  { unfold words_of. apply blank_tokens. rewrite blank_lower. assumption. }
  rewrite E. simpl. lia.
Qed.

Lemma diff_step_beyond (U T : list jsstring) (r : ErrorReport) (i : nat) :
  length U <= i -> length T <= i -> diff_step U T r i = r.
Proof.
  intros HU HT. unfold diff_step.
  apply nth_error_None in HU. apply nth_error_None in HT.
  rewrite HU, HT. reflexivity.
Qed.

Lemma diff_fold_beyond (U T : list jsstring) (n k : nat) (r : ErrorReport) :
  length U <= k -> length T <= k ->
  fold_left (diff_step U T) (seq k n) r = r.
Proof.
  revert k r. induction n as [|n IH]; intros k r HU HT; [reflexivity|].
  cbn [seq fold_left]. rewrite diff_step_beyond by assumption.
  apply IH; lia.
Qed.

(** Walking further than the longer sequence changes nothing. *)
Lemma diff_fold_longer (U T : list jsstring) (n : nat) (r : ErrorReport) :
  Nat.max (length U) (length T) <= n ->
  fold_left (diff_step U T) (seq 0 n) r
  = fold_left (diff_step U T) (seq 0 (Nat.max (length U) (length T))) r.
Proof.
  intros H. set (m := Nat.max (length U) (length T)) in *.
  replace n with (m + (n - m)) by lia.
  rewrite seq_app, fold_left_app. apply diff_fold_beyond; lia.
Qed.

Lemma analyzeErrors_diff (u t : jsstring) :
  analyzeErrors u t = positional_diff (words_of u) (words_of t).
Proof.
  rewrite analyzeErrors_words. unfold positional_diff.
  rewrite <- (diff_fold_longer (words_of u) (words_of t)
                (n := Nat.max (length (word_array u)) (length (word_array t)))).
  - apply fold_left_ext. intros r i.
    rewrite error_step_seen, !seen_word_array. unfold diff_step.
    destruct (nth_error (words_of u) i), (nth_error (words_of t) i); reflexivity.
  - pose proof (words_le_word_array u). pose proof (words_le_word_array t). lia.
Qed.

Lemma diff_fold_closed (U T : list jsstring) (r : ErrorReport) :
  fold_left (diff_step U T) (seq 0 (Nat.max (length U) (length T))) r
  = mkErrorReport (missedWords r ++ skipn (length U) T)
      (addedWords r ++ skipn (length T) U)
      (substitutions r ++ substitutions_of U T).
Proof.
  revert T r. induction U as [|u U IHU]; intros T.
  - induction T as [|t T IHT]; intros r.
    + simpl. rewrite !app_nil_r. destruct r; reflexivity.
    + cbn [length Nat.max seq fold_left]. rewrite fold_seq_shift.
      rewrite (@fold_left_ext _ _ _ (diff_step [] T)).
      * change (Nat.max (length (@nil jsstring)) (length T)) with (length T) in IHT.
        rewrite IHT. unfold diff_step at 1 2 3. cbn [nth_error length skipn
          missedWords addedWords substitutions substitutions_of].
        rewrite !skipn_nil, <- !app_assoc. reflexivity.
      * intros x i. unfold diff_step. cbn [nth_error].
        rewrite !nth_error_nil. reflexivity.
  - intros r. destruct T as [|t T].
    + cbn [length Nat.max seq fold_left]. rewrite fold_seq_shift.
      rewrite (@fold_left_ext _ _ _ (diff_step U [])).
      * specialize (IHU [] (diff_step (u :: U) [] r 0)).
        rewrite Nat.max_0_r in IHU. rewrite IHU.
        unfold diff_step. cbn [nth_error length skipn
          missedWords addedWords substitutions substitutions_of].
        rewrite ?skipn_nil, <- !app_assoc. destruct U; reflexivity.
      * intros x i. unfold diff_step. cbn [nth_error].
        rewrite !nth_error_nil. reflexivity.
    + cbn [length Nat.max seq fold_left]. rewrite fold_seq_shift.
      rewrite (@fold_left_ext _ _ _ (diff_step U T)) by reflexivity.
      rewrite IHU. unfold diff_step. cbn [nth_error length skipn substitutions_of].
      destruct (list_eq_dec ascii_dec u t); cbn [missedWords addedWords substitutions];
        [reflexivity|].
      rewrite <- !app_assoc. reflexivity.
Qed.

(** The report in closed form: the target words past the user's count are
    missed, the user words past the target's count are added. *)
Lemma positional_diff_closed (U T : list jsstring) :
  positional_diff U T
  = mkErrorReport (skipn (length U) T) (skipn (length T) U) (substitutions_of U T).
Proof. unfold positional_diff. rewrite diff_fold_closed. reflexivity. Qed.

Lemma substitutions_of_length (U T : list jsstring) :
  length (substitutions_of U T) <= Nat.min (length U) (length T).
Proof.
  revert T. induction U as [|u U IH]; intros T; [simpl; lia|].
  destruct T as [|t T]; [simpl; lia|].
  cbn [substitutions_of length Nat.min]. specialize (IH T).
  destruct (list_eq_dec ascii_dec u t); cbn [length]; lia.
Qed.

Lemma In_skipn (A : Type) (n : nat) (l : list A) (x : A) : In x (skipn n l) -> In x l.
Proof.
  intros H. rewrite <- (firstn_skipn n l). apply in_or_app. right. assumption.
Qed.

End ErrorAnalysis.

(** C5.  [analyzeErrors] is the positional walk over the words of the two
    texts in lower case: for [i] from 0 to [max(len(user), len(target)) - 1]
    a target word without a user word is missed, a user word without a
    target word is added, and two unequal words are a substitution with the
    target word as [original] and the user word as [spoken].
    ["hello earth"] against ["hello world"] gives the single substitution
    of ["world"] by ["earth"]. *)
Theorem analyzeErrors_positional :
  (forall u t : jsstring, analyzeErrors u t = positional_diff (words_of u) (words_of t))
  /\ analyzeErrors (txt "hello earth") (txt "hello world")
     = mkErrorReport [] [] [mkSubstitution (txt "world") (txt "earth")].
Proof. split; [exact analyzeErrors_diff | reflexivity]. Qed.

(** C10.  For texts that are not empty after trimming, the report has
    [max(0, targetWordCount - userWordCount)] missed words and
    [max(0, userWordCount - targetWordCount)] added words, so one of the
    two lists is empty; it has at most [min(userWordCount,
    targetWordCount)] substitutions; every missed word is a target word
    and every added word a user word. *)
Theorem analyzeErrors_counts (u t : jsstring) :
  blank u = false -> blank t = false ->
  let userWordCount := Z.of_nat (length (word_array u)) in
  let targetWordCount := Z.of_nat (length (word_array t)) in
  let r := analyzeErrors u t in
  Z.of_nat (length (missedWords r)) = Z.max 0 (targetWordCount - userWordCount)
  /\ Z.of_nat (length (addedWords r)) = Z.max 0 (userWordCount - targetWordCount)
  /\ (missedWords r = [] \/ addedWords r = [])
  /\ (Z.of_nat (length (substitutions r)) <= Z.min userWordCount targetWordCount)%Z
  /\ (forall w, In w (missedWords r) -> In w (word_array t))
  /\ (forall w, In w (addedWords r) -> In w (word_array u)).
Proof.
  intros Bu Bt. cbv zeta.
  rewrite analyzeErrors_diff, positional_diff_closed, !word_array_words, Bu, Bt.
  cbn [missedWords addedWords substitutions].
  set (U := words_of u). set (T := words_of t).
  pose proof (substitutions_of_length U T) as HS.
  repeat split.
  - rewrite length_skipn. lia.
  - rewrite length_skipn. lia.
  - destruct (Nat.le_ge_cases (length T) (length U)) as [L|L].
    + left. apply skipn_all2. assumption.
    + right. apply skipn_all2. assumption.
  - lia.
  - intros w. apply In_skipn.
  - intros w. apply In_skipn.
Qed.

Lemma analyzeErrors_counts_witness :
  let r := analyzeErrors (txt "hello world") (txt "hello beautiful world") in
  Z.of_nat (length (missedWords r)) = Z.max 0 (3 - 2)
  /\ Z.of_nat (length (addedWords r)) = Z.max 0 (2 - 3)
  /\ (missedWords r = [] \/ addedWords r = [])
  /\ (Z.of_nat (length (substitutions r)) <= Z.min 2 3)%Z
  /\ (forall w, In w (missedWords r) -> In w (word_array (txt "hello beautiful world")))
  /\ (forall w, In w (addedWords r) -> In w (word_array (txt "hello world"))).
Proof.
  apply (@analyzeErrors_counts (txt "hello world") (txt "hello beautiful world"));
    reflexivity.
Defined.

(** ** Letter grades and motivational messages *)

Section Feedback.

Lemma Qle_bool_false (a b : Q) : Qle_bool a b = false -> (b < a)%Q.
Proof.
  intros H. apply Qnot_le_lt. intros L. apply Qle_bool_iff in L. congruence.
Qed.

Lemma Qgt_bool_true (a b : Q) : Qgt_bool a b = true -> (b < a)%Q.
Proof.
  unfold Qgt_bool. intros H. apply Qle_bool_false.
  destruct (Qle_bool a b); [discriminate | reflexivity].
Qed.

Lemma Qgt_bool_false (a b : Q) : Qgt_bool a b = false -> (a <= b)%Q.
Proof.
  unfold Qgt_bool. intros H. apply Qle_bool_iff.
  destruct (Qle_bool a b); [reflexivity | discriminate].
Qed.

Lemma slice_last3_last_three (l : list Q) : slice_last3 l = last_three l.
Proof.
  unfold slice_last3, last_three. rewrite firstn_rev, rev_involutive. reflexivity.
Qed.

Lemma last_three_length (l : list Q) : length (last_three l) = Nat.min 3 (length l).
Proof.
  unfold last_three. rewrite length_rev, length_firstn, length_rev. reflexivity.
Qed.

Lemma fold_left_Qplus (l : list Q) (a : Q) : (fold_left Qplus l a == a + Qsum l)%Q.
Proof.
  revert a. induction l as [|x l IH]; intros a; simpl.
  - ring.
  - rewrite IH. ring.
Qed.

End Feedback.

Ltac grade_cases :=
  repeat match goal with
    | H : Qle_bool _ _ = true |- _ => apply Qle_bool_iff in H
    | H : Qle_bool _ _ = false |- _ => apply Qle_bool_false in H
    end.

(** C4.  [getLetterGrade] maps a score to its grade by the thresholds 97,
    93, 90, 87, 83, 80, 77, 73, 70, 67 and 65: each grade is the grade of
    exactly the scores from its threshold up to the next one, [A+] of all
    scores from 97 up and [F] of all scores below 65, also outside
    [0, 100]. *)
Theorem getLetterGrade_thresholds :
  (forall s : Q,
      (getLetterGrade s = A_plus <-> 97 <= s)%Q
      /\ (getLetterGrade s = A <-> 93 <= s /\ s < 97)%Q
      /\ (getLetterGrade s = A_minus <-> 90 <= s /\ s < 93)%Q
      /\ (getLetterGrade s = B_plus <-> 87 <= s /\ s < 90)%Q
      /\ (getLetterGrade s = B <-> 83 <= s /\ s < 87)%Q
      /\ (getLetterGrade s = B_minus <-> 80 <= s /\ s < 83)%Q
      /\ (getLetterGrade s = C_plus <-> 77 <= s /\ s < 80)%Q
      /\ (getLetterGrade s = C <-> 73 <= s /\ s < 77)%Q
      /\ (getLetterGrade s = C_minus <-> 70 <= s /\ s < 73)%Q
      /\ (getLetterGrade s = D_plus <-> 67 <= s /\ s < 70)%Q
      /\ (getLetterGrade s = D <-> 65 <= s /\ s < 67)%Q
      /\ (getLetterGrade s = F <-> s < 65)%Q)
  /\ getLetterGrade 100 = A_plus /\ getLetterGrade 110 = A_plus
  /\ getLetterGrade 95 = A
  /\ getLetterGrade 60 = F /\ getLetterGrade 0 = F /\ getLetterGrade (-10) = F.
Proof.
  split; [|repeat split].
  intros s. unfold getLetterGrade.
  destruct (Qle_bool 97 s) eqn:H97; [grade_cases; repeat split; intros; try discriminate; lra|].
  destruct (Qle_bool 93 s) eqn:H93; [grade_cases; repeat split; intros; try discriminate; lra|].
  destruct (Qle_bool 90 s) eqn:H90; [grade_cases; repeat split; intros; try discriminate; lra|].
  destruct (Qle_bool 87 s) eqn:H87; [grade_cases; repeat split; intros; try discriminate; lra|].
  destruct (Qle_bool 83 s) eqn:H83; [grade_cases; repeat split; intros; try discriminate; lra|].
  destruct (Qle_bool 80 s) eqn:H80; [grade_cases; repeat split; intros; try discriminate; lra|].
  destruct (Qle_bool 77 s) eqn:H77; [grade_cases; repeat split; intros; try discriminate; lra|].
  destruct (Qle_bool 73 s) eqn:H73; [grade_cases; repeat split; intros; try discriminate; lra|].
  destruct (Qle_bool 70 s) eqn:H70; [grade_cases; repeat split; intros; try discriminate; lra|].
  destruct (Qle_bool 67 s) eqn:H67; [grade_cases; repeat split; intros; try discriminate; lra|].
  destruct (Qle_bool 65 s) eqn:H65; grade_cases; repeat split; intros; try discriminate; lra.
Qed.

(** C9.  Without prior scores [generateMotivationalMessage] returns the
    welcome message.  Otherwise the improvement is the current score minus
    the average of the last three prior scores (of all of them when there
    are fewer), and the message is the one of its tier: above 10, above 5,
    above 0, above -5, or none of these. *)
Theorem generateMotivationalMessage_tiers (currentScore : Q) (previousScores : list Q) :
  match previousScores with
  | [] => generateMotivationalMessage currentScore previousScores = Welcome
  | _ :: _ =>
      tier (currentScore - recent_average previousScores)
        (generateMotivationalMessage currentScore previousScores)
  end.
Proof.
  destruct previousScores as [|p ps]; [reflexivity|].
  unfold generateMotivationalMessage. cbn [length Nat.eqb].
  set (l := p :: ps).
  change (S (length ps)) with (length l).
  assert (E : (fold_left Qplus (slice_last3 l) 0 / num (Nat.min 3 (length l))
               == recent_average l)%Q).
  { unfold recent_average. rewrite fold_left_Qplus, slice_last3_last_three.
    rewrite last_three_length, Qplus_0_l. reflexivity. }
  set (a := (fold_left Qplus (slice_last3 l) 0 / num (Nat.min 3 (length l)))%Q) in *.
  set (b := recent_average l) in *.
  destruct (Qgt_bool (currentScore - a) 10) eqn:H10.
  { apply Qgt_bool_true in H10. apply tier_amazing. lra. }
  apply Qgt_bool_false in H10.
  destruct (Qgt_bool (currentScore - a) 5) eqn:H5.
  { apply Qgt_bool_true in H5. apply tier_great; lra. }
  apply Qgt_bool_false in H5.
  destruct (Qgt_bool (currentScore - a) 0) eqn:H0.
  { apply Qgt_bool_true in H0. apply tier_nice; lra. }
  apply Qgt_bool_false in H0.
  destruct (Qgt_bool (currentScore - a) (-5)) eqn:Hm.
  { apply Qgt_bool_true in Hm. apply tier_stay; lra. }
  apply Qgt_bool_false in Hm. apply tier_dont_worry. lra.
Qed.

Example generateMotivationalMessage_examples :
  generateMotivationalMessage 80 [] = Welcome
  /\ generateMotivationalMessage 85 [70; 72; 75]%Q = AmazingImprovement
  /\ generateMotivationalMessage 80 [60; 70; 72; 75]%Q = GreatProgress
  /\ generateMotivationalMessage 77 [74; 75; 76]%Q = NiceJob
  /\ generateMotivationalMessage 75 [74; 75; 76]%Q = StayConsistent
  /\ generateMotivationalMessage 70 [85; 83]%Q = DontWorry.
Proof. repeat split. Qed.

(** ** The difficulty tier of a phrase *)

Section Tier.

Lemma eqb_char_refl (c : ascii) : Ascii.eqb c c = true.
Proof. apply Ascii.eqb_eq. reflexivity. Qed.














End Tier.


(** ** The difficulty rating of a text *)

Section Rating.



(** *** Consonant clusters *)




(** *** Uncommon sounds *)





(** *** Repeated starting sounds *)


















End Rating.


Example calculateDifficulty_examples :
  calculateDifficulty (txt "hello world today") = 2%Z
  /\ calculateDifficulty (txt "sally sells seashells") = 10%Z
  /\ calculateDifficulty (txt "extraordinarily ") = 8%Z
  /\ difficulty_sum (txt "sally sells seashells") = 6.
Proof. repeat split; vm_compute; reflexivity. Qed.

(* ================================================================== *)
(** * Further properties of the code *)

(** ** The edit distance and the similarity of two words *)

Section EditRecurrence.

Lemma edit_rec_nil_r (b : jsstring) : edit_rec b [] = length b.
Proof. destruct b; reflexivity. Qed.

Lemma edit_rec_cons (y x : ascii) (b a : jsstring) :
  edit_rec (y :: b) (x :: a)
  = if Ascii.eqb y x then edit_rec b a
    else Nat.min (Nat.min (edit_rec b a + 1) (edit_rec (y :: b) a + 1))
                 (edit_rec b (x :: a) + 1).
Proof. reflexivity. Qed.

Lemma cells_unfold (b a s : jsstring) :
  cells b a s
  = edit_rec b a :: match s with [] => [] | c :: s' => cells b (c :: a) s' end.
Proof. destruct s; reflexivity. Qed.

Lemma fill_row_cells (ci : ascii) (b : jsstring) :
  forall s a,
    fill_row ci s (cells b a s) (edit_rec (ci :: b) a) = tl (cells (ci :: b) a s).
Proof.
  induction s as [|cj s IH]; intros a; [reflexivity|].
  cbn [cells tl]. rewrite (cells_unfold b (cj :: a) s).
  cbn [fill_row]. rewrite <- (cells_unfold b (cj :: a) s).
  rewrite <- edit_rec_cons, IH.
  rewrite (cells_unfold (ci :: b) (cj :: a) s). reflexivity.
Qed.

Lemma cells_nil (s a : jsstring) : cells [] a s = seq (length a) (S (length s)).
Proof.
  revert a. induction s as [|c s IH]; intros a; [reflexivity|].
  cbn [cells length seq]. rewrite IH. reflexivity.
Qed.

Lemma fill_rows_cells (str1 : jsstring) :
  forall str2 b,
    fill_rows str1 str2 (length b) (cells b [] str1) = cells (rev str2 ++ b) [] str1.
Proof.
  induction str2 as [|ci str2 IH]; intros b; [reflexivity|].
  cbn [fill_rows rev].
  change (S (length b)) with (edit_rec (ci :: b) []) at 2 3.
  rewrite fill_row_cells.
  change (S (length b)) with (length (ci :: b)).
  replace (edit_rec (ci :: b) [] :: tl (cells (ci :: b) [] str1))
    with (cells (ci :: b) [] str1) by (destruct str1; reflexivity).
  rewrite IH, <- app_assoc. reflexivity.
Qed.

Lemma cells_last (b : jsstring) :
  forall s a d, last (cells b a s) d = edit_rec b (rev s ++ a).
Proof.
  induction s as [|c s IH]; intros a d; [reflexivity|].
  rewrite cells_unfold. cbn [rev]. rewrite <- app_assoc. cbn [app].
  rewrite <- (IH (c :: a) d).
  destruct (cells b (c :: a) s) eqn:E; [|reflexivity].
  destruct s; discriminate.
Qed.

(** The matrix computes the recurrence. *)
Lemma levenshteinDistance_rec (str1 str2 : jsstring) :
  levenshteinDistance str1 str2 = edit_rec (rev str2) (rev str1).
Proof.
  unfold levenshteinDistance.
  replace (seq 0 (S (length str1))) with (cells [] [] str1) by apply cells_nil.
  pose proof (fill_rows_cells str1 str2 []) as H. cbn [length] in H.
  rewrite H, cells_last, !app_nil_r. reflexivity.
Qed.

Lemma edit_rec_zero (b a : jsstring) : edit_rec b a = 0 <-> b = a.
Proof.
  revert a. induction b as [|y b IHb]; intros a.
  - cbn [edit_rec]. destruct a; simpl; split; (discriminate || reflexivity || congruence).
  - induction a as [|x a IHa].
    + cbn [edit_rec]. split; discriminate.
    + rewrite edit_rec_cons. destruct (Ascii.eqb y x) eqn:E.
      * apply Ascii.eqb_eq in E. subst x. rewrite IHb.
        split; [intros -> | intros H; injection H]; auto.
      * split; [lia|]. intros H. injection H as -> _.
        rewrite eqb_char_refl in E. discriminate.
Qed.

Lemma edit_rec_sym (b a : jsstring) : edit_rec b a = edit_rec a b.
Proof.
  revert a. induction b as [|y b IHb]; intros a.
  - rewrite edit_rec_nil_r. reflexivity.
  - induction a as [|x a IHa].
    + rewrite edit_rec_nil_r. reflexivity.
    + rewrite !edit_rec_cons, (Ascii.eqb_sym x y), IHa, (IHb a), (IHb (x :: a)).
      destruct (Ascii.eqb y x); lia.
Qed.

Lemma edit_rec_bounds (b a : jsstring) :
  Nat.max (length b) (length a) - Nat.min (length b) (length a) <= edit_rec b a
  /\ edit_rec b a <= Nat.max (length b) (length a).
Proof.
  revert a. induction b as [|y b IHb]; intros a.
  - cbn [edit_rec length]. lia.
  - induction a as [|x a IHa].
    + cbn [edit_rec length]. lia.
    + rewrite edit_rec_cons. cbn [length] in *.
      pose proof (IHb a). pose proof (IHb (x :: a)) as H2. cbn [length] in H2.
      destruct (Ascii.eqb y x); lia.
Qed.

Lemma similarity_sym (a b : jsstring) :
  calculateStringSimilarity a b = calculateStringSimilarity b a.
Proof.
  unfold calculateStringSimilarity.
  destruct (length b <? length a) eqn:E1, (length a <? length b) eqn:E2;
    try reflexivity.
  - apply Nat.ltb_lt in E1, E2. lia.
  - apply Nat.ltb_ge in E1, E2.
    assert (L : length a = length b) by lia.
    rewrite L, !levenshteinDistance_rec, edit_rec_sym. reflexivity.
Qed.

End EditRecurrence.

(** X1.  The edit distance of two strings is 0 exactly when the strings are
    equal. *)
Theorem levenshteinDistance_zero (str1 str2 : jsstring) :
  levenshteinDistance str1 str2 = 0 <-> str1 = str2.
Proof.
  rewrite levenshteinDistance_rec, edit_rec_zero. split.
  - intros H. apply (f_equal (@rev ascii)) in H.
    rewrite !rev_involutive in H. congruence.
  - intros ->. reflexivity.
Qed.

(** X2.  The edit distance does not depend on the order of its arguments. *)
Theorem levenshteinDistance_sym (str1 str2 : jsstring) :
  levenshteinDistance str1 str2 = levenshteinDistance str2 str1.
Proof. rewrite !levenshteinDistance_rec. apply edit_rec_sym. Qed.

(** X3.  The edit distance lies between the difference of the two lengths
    and the larger length; against the empty string it is the length. *)
Theorem levenshteinDistance_bounds (str1 str2 : jsstring) :
  Nat.max (length str1) (length str2) - Nat.min (length str1) (length str2)
  <= levenshteinDistance str1 str2
  /\ levenshteinDistance str1 str2 <= Nat.max (length str1) (length str2)
  /\ levenshteinDistance str1 [] = length str1
  /\ levenshteinDistance [] str2 = length str2.
Proof.
  rewrite !levenshteinDistance_rec.
  pose proof (edit_rec_bounds (rev str2) (rev str1)) as B.
  rewrite !length_rev in B.
  repeat split; try lia.
  - cbn [rev edit_rec]. apply length_rev.
  - cbn [rev]. rewrite edit_rec_nil_r. apply length_rev.
Qed.

Section SimilarityFacts.

Lemma num_inj_zero (n : nat) : (num n == 0)%Q -> n = 0.
Proof.
  unfold num. intros H. change 0%Q with (inject_Z 0) in H.
  rewrite inject_Z_injective in H. lia.
Qed.

Lemma similarity_one (a b : jsstring) :
  (calculateStringSimilarity a b == 1)%Q <-> a = b.
Proof.
  unfold calculateStringSimilarity.
  set (longer := if length b <? length a then a else b).
  set (shorter := if length b <? length a then b else a).
  assert (S1 : longer = shorter <-> a = b).
  { subst longer shorter. destruct (length b <? length a); split; congruence. }
  assert (L : length a <= length longer /\ length b <= length longer).
  { subst longer. destruct (length b <? length a) eqn:C.
    - apply Nat.ltb_lt in C. lia.
    - apply Nat.ltb_ge in C. lia. }
  destruct (length longer =? 0) eqn:E0.
  - apply Nat.eqb_eq in E0. split; [intros _|reflexivity].
    rewrite E0 in L. destruct a, b; simpl in L; try lia. reflexivity.
  - apply Nat.eqb_neq in E0.
    assert (P : (0 < num (length longer))%Q) by (apply num_pos; lia).
    assert (Z0 : levenshteinDistance longer shorter = 0 <-> longer = shorter).
    { rewrite levenshteinDistance_rec, edit_rec_zero. split.
      - intros H. apply (f_equal (@rev ascii)) in H.
        rewrite !rev_involutive in H. congruence.
      - intros ->. reflexivity. }
    rewrite <- S1, <- Z0. split.
    + intros H. apply num_inj_zero.
      assert (K : ((num (length longer) - num (levenshteinDistance longer shorter))
                   / num (length longer) * num (length longer)
                   == num (length longer) - num (levenshteinDistance longer shorter))%Q)
        by (field; lra).
      rewrite H in K. lra.
    + intros ->. change (num 0) with 0%Q. field. lra.
Qed.

Lemma word_credit_range (u t : jsstring) : (0 <= word_credit u t <= 1)%Q.
Proof.
  unfold word_credit. destruct (list_eq_dec ascii_dec u t).
  - split; discriminate.
  - apply calculateStringSimilarity_range.
Qed.

Lemma word_credit_sym (u t : jsstring) : word_credit u t = word_credit t u.
Proof.
  unfold word_credit.
  destruct (list_eq_dec ascii_dec u t), (list_eq_dec ascii_dec t u);
    try congruence; try reflexivity.
  apply similarity_sym.
Qed.

Lemma credit_sum_sym (U T : list jsstring) : credit_sum U T = credit_sum T U.
Proof.
  revert T. induction U as [|u U IH]; intros T.
  - destruct T; reflexivity.
  - destruct T as [|t T]; [reflexivity|].
    cbn [credit_sum]. rewrite IH, word_credit_sym. reflexivity.
Qed.

Lemma num_S (n : nat) : (num (S n) == num n + 1)%Q.
Proof.
  unfold num. rewrite Nat2Z.inj_succ, <- Z.add_1_r, inject_Z_plus. reflexivity.
Qed.

Lemma num_le (n m : nat) : n <= m -> (num n <= num m)%Q.
Proof. intros H. unfold num. rewrite <- Zle_Qle. lia. Qed.

Lemma credit_sum_range (U T : list jsstring) :
  (0 <= credit_sum U T <= num (Nat.min (length U) (length T)))%Q.
Proof.
  revert T. induction U as [|u U IH]; intros T.
  - cbn [credit_sum length Nat.min]. split; discriminate.
  - destruct T as [|t T]; [cbn [credit_sum length Nat.min]; split; discriminate|].
    cbn [credit_sum length Nat.min]. rewrite num_S.
    pose proof (IH T). pose proof (word_credit_range u t). lra.
Qed.

Lemma base_similarity_range (U T : list jsstring) :
  1 <= length T -> (0 <= base_similarity U T <= 100)%Q.
Proof.
  intros HT. unfold base_similarity.
  pose proof (credit_sum_range U T) as [C0 C1].
  assert (P : (0 < num (Nat.max (length U) (length T)))%Q) by (apply num_pos; lia).
  assert (M : (num (Nat.min (length U) (length T))
               <= num (Nat.max (length U) (length T)))%Q) by (apply num_le; lia).
  assert (D : (0 <= credit_sum U T / num (Nat.max (length U) (length T)) <= 1)%Q).
  { split.
    - apply Qle_shift_div_l; [assumption | lra].
    - apply Qle_shift_div_r; [assumption | lra]. }
  lra.
Qed.

Lemma Math_round_range (lo hi : Z) (x : Q) :
  (inject_Z lo <= x <= inject_Z hi)%Q -> (lo <= Math_round x <= hi)%Z.
Proof.
  intros [L H]. apply Math_round_mono in L, H.
  rewrite Math_round_Z in L, H. lia.
Qed.

Lemma run_length_le (l : list bool) : run_length l <= length l.
Proof. induction l as [|[] l IH]; simpl; lia. Qed.

Lemma longest_run_le (l : list bool) : longest_run l <= length l.
Proof.
  induction l as [|b l IH]; [simpl; lia|].
  cbn [longest_run length]. pose proof (run_length_le (b :: l)) as H.
  cbn [length] in H. lia.
Qed.

Lemma positional_matches_length (U T : list jsstring) :
  length (positional_matches U T) = Nat.min (length U) (length T).
Proof.
  revert T. induction U as [|u U IH]; intros T; [reflexivity|].
  destruct T as [|t T]; [reflexivity|].
  cbn [positional_matches length Nat.min]. rewrite IH. reflexivity.
Qed.

Lemma order_bonus_range (U T : list jsstring) :
  1 <= length T -> (0 <= order_bonus U T <= 20)%Q.
Proof.
  intros HT. unfold order_bonus.
  set (n := longest_run (positional_matches U T)).
  assert (Hn : n <= length T).
  { subst n. pose proof (longest_run_le (positional_matches U T)) as H.
    rewrite positional_matches_length in H. lia. }
  assert (P : (0 < num (length T))%Q) by (apply num_pos; lia).
  pose proof (num_nonneg n). pose proof (num_le Hn).
  assert (D : (0 <= num n / num (length T) <= 1)%Q).
  { split.
    - apply Qle_shift_div_l; [assumption | lra].
    - apply Qle_shift_div_r; [assumption | lra]. }
  lra.
Qed.

Lemma length_penalty_lt_30 (U T : list jsstring) :
  1 <= length U -> 1 <= length T -> (length_penalty U T < 30)%Q.
Proof.
  intros HU HT. unfold length_penalty.
  set (d := Z.abs (Z.of_nat (length U) - Z.of_nat (length T))).
  set (m := Nat.max (length U) (length T)).
  assert (P : (0 < num m)%Q) by (apply num_pos; lia).
  assert (D : (inject_Z d < num m)%Q) by (unfold num; rewrite <- Zlt_Qlt; lia).
  assert (D1 : (inject_Z d / num m < 1)%Q)
    by (apply Qlt_shift_div_r; [assumption | lra]).
  lra.
Qed.

Lemma length_penalty_zero (U T : list jsstring) :
  1 <= length T -> ((length_penalty U T == 0)%Q <-> length U = length T).
Proof.
  intros HT. split; [|apply length_penalty_same_length].
  unfold length_penalty. intros H.
  set (d := Z.abs (Z.of_nat (length U) - Z.of_nat (length T))) in *.
  set (m := Nat.max (length U) (length T)) in *.
  assert (P : (0 < num m)%Q) by (apply num_pos; lia).
  assert (E : (inject_Z d == 0)%Q).
  { assert (E1 : (inject_Z d / num m == 0)%Q) by lra.
    assert (K : (inject_Z d / num m * num m == inject_Z d)%Q) by (field; lra).
    rewrite E1 in K. lra. }
  change 0%Q with (inject_Z 0) in E. rewrite inject_Z_injective in E. lia.
Qed.

Lemma final_score_le_74 (b o p : Q) :
  (b <= 100)%Q -> (o <= 20)%Q -> (0 <= p)%Q -> (final_score b o p <= 74)%Z.
Proof.
  intros Hb Ho Hp.
  assert (X : (b * 0.7 + o * 0.2 - p * 0.1 <= inject_Z 74)%Q)
    by (change (inject_Z 74) with 74%Q; lra).
  unfold final_score. rewrite <- (round_clamp (lo := 0) (hi := 100)) by lia.
  apply Math_round_mono in X. rewrite Math_round_Z in X. lia.
Qed.

Lemma compareTexts_le_74 (u t : jsstring) : (compareTexts u t <= 74)%Z.
Proof.
  destruct (is_empty u || is_empty t) eqn:E.
  - unfold compareTexts. rewrite E. lia.
  - apply orb_false_iff in E as [Hu Ht].
    rewrite compareTexts_words by assumption.
    pose proof (word_array_length t) as Lt.
    apply final_score_le_74.
    + pose proof (@Math_round_range 0 100 _
                    (@base_similarity_range (word_array u) _ Lt)) as R.
      change 100%Q with (inject_Z 100). rewrite <- Zle_Qle. lia.
    + apply order_bonus_range. assumption.
    + apply length_penalty_nonneg.
Qed.

End SimilarityFacts.

(** X4.  The similarity of two words is a number from 0 to 1; it is 1
    exactly when the words are equal, and it does not depend on the order of
    the two words. *)
Theorem calculateStringSimilarity_properties (str1 str2 : jsstring) :
  (0 <= calculateStringSimilarity str1 str2 <= 1)%Q
  /\ ((calculateStringSimilarity str1 str2 == 1)%Q <-> str1 = str2)
  /\ calculateStringSimilarity str1 str2 = calculateStringSimilarity str2 str1.
Proof.
  split; [apply calculateStringSimilarity_range|].
  split; [apply similarity_one | apply similarity_sym].
Qed.

(** X5.  [comparePhonemes] returns an integer from 0 to 100, whatever the
    two texts. *)
Theorem comparePhonemes_range (userText targetText : jsstring) :
  (0 <= comparePhonemes userText targetText <= 100)%Z.
Proof.
  destruct (is_empty userText || is_empty targetText) eqn:E.
  - unfold comparePhonemes. rewrite E. lia.
  - apply orb_false_iff in E as [Hu Ht].
    rewrite comparePhonemes_words by assumption.
    apply (@Math_round_range 0 100), base_similarity_range, word_array_length.
Qed.

(** X6.  [comparePhonemes] is symmetric: the user's text and the target
    text can change places. *)
Theorem comparePhonemes_sym (userText targetText : jsstring) :
  comparePhonemes userText targetText = comparePhonemes targetText userText.
Proof.
  destruct (is_empty userText) eqn:Hu.
  { unfold comparePhonemes. rewrite Hu, orb_true_r. reflexivity. }
  destruct (is_empty targetText) eqn:Ht.
  { unfold comparePhonemes. rewrite Ht, orb_true_r. reflexivity. }
  rewrite !comparePhonemes_words by assumption.
  unfold base_similarity. rewrite credit_sum_sym, Nat.max_comm. reflexivity.
Qed.

(** X7.  The length penalty is a number from 0 up to, but not reaching, 30;
    it is 0 exactly when the two texts split into the same number of
    words. *)
Theorem calculateLengthPenalty_range (userText targetText : jsstring) :
  (0 <= calculateLengthPenalty userText targetText < 30)%Q
  /\ ((calculateLengthPenalty userText targetText == 0)%Q
      <-> length (split_ws (trim userText)) = length (split_ws (trim targetText))).
Proof.
  rewrite lengthPenalty_words.
  pose proof (word_array_length userText). pose proof (word_array_length targetText).
  split; [split; [apply length_penalty_nonneg | apply length_penalty_lt_30; assumption]|].
  rewrite length_penalty_zero by assumption.
  unfold word_array. rewrite !split_trim_length_lower. reflexivity.
Qed.

(** X8.  The word-order bonus is a number from 0 to 20. *)
Theorem calculateWordOrderBonus_range (userText targetText : jsstring) :
  (0 <= calculateWordOrderBonus userText targetText <= 20)%Q.
Proof.
  rewrite wordOrderBonus_words. apply order_bonus_range, word_array_length.
Qed.

(** X9.  No two texts score more than 74 with [compareTexts]. *)
Theorem compareTexts_at_most_74 (userText targetText : jsstring) :
  (compareTexts userText targetText <= 74)%Z.
Proof. apply compareTexts_le_74. Qed.

(** ** More on the error report *)

Section ReportFacts.

Lemma substitutions_of_swap (U T : list jsstring) :
  substitutions_of T U = map swap_substitution (substitutions_of U T).
Proof.
  revert T. induction U as [|u U IH]; intros T.
  - destruct T; reflexivity.
  - destruct T as [|t T]; [reflexivity|].
    cbn [substitutions_of].
    destruct (list_eq_dec ascii_dec t u), (list_eq_dec ascii_dec u t);
      try congruence; cbn [map]; rewrite IH; reflexivity.
Qed.

Lemma skipn_nil_iff (A : Type) (n : nat) (l : list A) :
  skipn n l = [] <-> length l <= n.
Proof.
  split; [|apply skipn_all2].
  intros H. apply (f_equal (@length A)) in H.
  rewrite length_skipn in H. simpl in H. lia.
Qed.

Lemma substitutions_of_nil (U T : list jsstring) :
  length U = length T -> (substitutions_of U T = [] <-> U = T).
Proof.
  revert T. induction U as [|u U IH]; intros T L.
  - destruct T; [split; reflexivity | discriminate].
  - destruct T as [|t T]; [discriminate|].
    cbn [substitutions_of]. injection L as L.
    destruct (list_eq_dec ascii_dec u t) as [->|N].
    + rewrite (IH T L). split; [intros -> | intros H; injection H]; auto.
    + split; [discriminate | intros H; injection H; intros; contradiction].
Qed.

Lemma positional_diff_empty (U T : list jsstring) :
  positional_diff U T = mkErrorReport [] [] [] <-> U = T.
Proof.
  rewrite positional_diff_closed. split.
  - intros H. injection H as H1 H2 H3.
    apply skipn_nil_iff in H1, H2.
    apply substitutions_of_nil; [lia | assumption].
  - intros ->. rewrite !skipn_all.
    f_equal. apply substitutions_of_nil; reflexivity.
Qed.

Lemma word_array_of_words (s s' : jsstring) :
  words_of s = words_of s' -> word_array s = word_array s'.
Proof.
  intros E. rewrite !word_array_words.
  assert (B : blank s = blank s').
  { rewrite <- (blank_lower s), <- (blank_lower s').
    apply blank_of_tokens. exact E. }
  rewrite B, E. reflexivity.
Qed.

End ReportFacts.

(** X10.  With the two texts in each other's place, [analyzeErrors] gives
    the same report with the missed and the added words exchanged and
    [original] and [spoken] exchanged in every substitution. *)
Theorem analyzeErrors_swap (userText targetText : jsstring) :
  analyzeErrors targetText userText = swap_report (analyzeErrors userText targetText).
Proof.
  rewrite !analyzeErrors_diff, !positional_diff_closed.
  unfold swap_report. cbn [missedWords addedWords substitutions].
  rewrite substitutions_of_swap. reflexivity.
Qed.

(** X11.  The report of [analyzeErrors] is empty exactly when the two texts
    have the same words in the same order, letter case and white space
    apart. *)
Theorem analyzeErrors_empty_iff (userText targetText : jsstring) :
  analyzeErrors userText targetText = mkErrorReport [] [] []
  <-> words_of userText = words_of targetText.
Proof. rewrite analyzeErrors_diff. apply positional_diff_empty. Qed.

(** X12.  Two non-empty strings for which [analyzeErrors] reports nothing
    get the highest score of [compareTexts], 74. *)
Theorem empty_report_scores_74 (userText targetText : jsstring) :
  is_empty userText = false -> is_empty targetText = false ->
  analyzeErrors userText targetText = mkErrorReport [] [] [] ->
  compareTexts userText targetText = 74%Z.
Proof.
  intros Hu Ht H. rewrite analyzeErrors_diff in H.
  apply positional_diff_empty in H.
  apply compareTexts_same_words; try assumption.
  apply word_array_of_words. assumption.
Qed.

Lemma empty_report_scores_74_witness :
  compareTexts (txt "Hello  World") (txt " hello world") = 74%Z.
Proof.
  apply (@empty_report_scores_74 (txt "Hello  World") (txt " hello world"));
    reflexivity.
Defined.

(** ** Grades and messages *)

(** X13.  A higher score never gets a lower letter grade. *)
Theorem getLetterGrade_monotone (score1 score2 : Q) :
  (score1 <= score2)%Q ->
  grade_rank (getLetterGrade score1) <= grade_rank (getLetterGrade score2).
Proof.
  intros H. unfold getLetterGrade.
  repeat match goal with
    | |- context [Qle_bool ?a score1] => destruct (Qle_bool a score1) eqn:?
    end;
  repeat match goal with
    | |- context [Qle_bool ?a score2] => destruct (Qle_bool a score2) eqn:?
    end;
  cbn [grade_rank]; try lia; grade_cases; lra.
Qed.

Lemma getLetterGrade_monotone_witness :
  grade_rank (getLetterGrade 86.5) <= grade_rank (getLetterGrade 87).
Proof. apply (@getLetterGrade_monotone 86.5 87). discriminate. Defined.

(** X14.  [generateMotivationalMessage] looks at the last three prior
    scores only: older scores do not change the message. *)
Theorem generateMotivationalMessage_last_three
  (currentScore : Q) (older recent : list Q) :
  length recent = 3 ->
  generateMotivationalMessage currentScore (older ++ recent)
  = generateMotivationalMessage currentScore recent.
Proof.
  intros L. unfold generateMotivationalMessage, slice_last3.
  rewrite length_app, L.
  replace (length older + 3 - 3) with (length older) by lia.
  rewrite skipn_app, Nat.sub_diag, skipn_all. cbn [skipn app Nat.sub].
  replace (length older + 3 =? 0) with false by (symmetry; apply Nat.eqb_neq; lia).
  replace (Nat.min 3 (length older + 3)) with 3 by lia.
  reflexivity.
Qed.

Lemma generateMotivationalMessage_last_three_witness :
  generateMotivationalMessage 77 ([10; 20] ++ [74; 75; 76])%Q
  = generateMotivationalMessage 77 [74; 75; 76]%Q.
Proof.
  apply (@generateMotivationalMessage_last_three 77 [10; 20]%Q [74; 75; 76]%Q).
  reflexivity.
Defined.

(** ** The feedback of an attempt *)

Section FeedbackFacts.

(** The sound tips of a pair of texts: the patterns whose sound the target
    has and the user's text lacks. *)
Lemma pattern_fold (userLower targetLower : jsstring) (ps : list Pattern)
  (fb : list FeedbackItem) :
  fold_left (pattern_step userLower targetLower) ps fb
  = fb ++ map (fun p => PracticeSound (sound p) (tip p))
            (filter (fun p => includes (sound p) targetLower
                              && negb (includes (sound p) userLower)) ps).
Proof.
  revert fb. induction ps as [|p ps IH]; intros fb.
  - simpl. rewrite app_nil_r. reflexivity.
  - cbn [fold_left filter]. rewrite IH. unfold pattern_step.
    destruct (includes (sound p) targetLower && negb (includes (sound p) userLower)).
    + cbn [map]. rewrite <- app_assoc. reflexivity.
    + reflexivity.
Qed.

Lemma generatePronunciationFeedback_closed (u t : jsstring) (score : Q) :
  generatePronunciationFeedback u t score
  = score_message score
    :: map (fun p => PracticeSound (sound p) (tip p))
         (filter (fun p => includes (sound p) (toLowerCase t)
                           && negb (includes (sound p) (toLowerCase u)))
            PRONUNCIATION_PATTERNS)
    ++ (if Qle_bool 80 score then [] else [TipReadSlowly; TipMoveMouth]).
Proof.
  unfold generatePronunciationFeedback. rewrite pattern_fold.
  destruct (Qle_bool 80 score); [rewrite app_nil_r|rewrite <- app_assoc]; reflexivity.
Qed.

Lemma filter_length_le (A : Type) (f : A -> bool) (l : list A) :
  length (filter f l) <= length l.
Proof. induction l as [|x l IH]; simpl; [lia|]. destruct (f x); simpl; lia. Qed.

Lemma generatePerformanceFeedback_length (score : Q) :
  length (generatePerformanceFeedback score) = 2.
Proof.
  unfold generatePerformanceFeedback.
  repeat match goal with
    | |- context [Qle_bool ?a score] => destruct (Qle_bool a score)
    end; reflexivity.
Qed.

Lemma word_order_fold (W : list jsstring) :
  fold_left (word_order_step W W) (seq 0 (Nat.min (length W) (length W))) 0
  = length W.
Proof.
  unfold word_order_step.
  rewrite (fold_index_combine
             (fun x u t => if list_eq_dec ascii_dec u t then x + 1 else x)).
  assert (G : forall n, fold_left
                (fun x p => if list_eq_dec ascii_dec (fst p) (snd p) then x + 1 else x)
                (combine W W) n = n + length W).
  { induction W as [|w W IH]; intros n; [simpl; lia|].
    cbn [combine fold_left fst snd length].
    destruct (list_eq_dec ascii_dec w w); [|contradiction].
    rewrite IH. lia. }
  apply G.
Qed.

Lemma checkWordOrder_same (W : list jsstring) :
  1 <= length W -> (checkWordOrder W W == 1)%Q.
Proof.
  intros H. unfold checkWordOrder. rewrite word_order_fold.
  destruct (0 <? length W) eqn:E; [|apply Nat.ltb_ge in E; lia].
  field. apply num_nonzero. assumption.
Qed.

Lemma Qgt_bool_comp (a a' b b' : Q) :
  (a == a')%Q -> (b == b')%Q -> Qgt_bool a b = Qgt_bool a' b'.
Proof.
  intros Ea Eb. destruct (Qgt_bool a b) eqn:E1, (Qgt_bool a' b') eqn:E2;
    try reflexivity.
  - apply Qgt_bool_true in E1. apply Qgt_bool_false in E2. lra.
  - apply Qgt_bool_false in E1. apply Qgt_bool_true in E2. lra.
Qed.

(** The technical feedback of two texts with the same array of words is
    at most the item on sounds. *)
Lemma generateTechnicalFeedback_same (u t : jsstring) :
  word_array u = word_array t ->
  generateTechnicalFeedback u t
  = if 0 <? length (detectSoundIssues u t)
    then [FocusOnSounds (detectSoundIssues u t)] else [].
Proof.
  intros E. unfold generateTechnicalFeedback.
  fold (word_array u) (word_array t). rewrite E.
  pose proof (word_array_length t) as L.
  set (n := num (length (word_array t))).
  assert (P : (0 < n)%Q) by (apply num_pos; assumption).
  assert (G1 : Qgt_bool (n * 0.7) n = false).
  { destruct (Qgt_bool (n * 0.7) n) eqn:G; [|reflexivity].
    apply Qgt_bool_true in G. lra. }
  assert (G2 : Qgt_bool n (n * 1.3) = false).
  { destruct (Qgt_bool n (n * 1.3)) eqn:G; [|reflexivity].
    apply Qgt_bool_true in G. lra. }
  assert (G3 : Qgt_bool 0.8 (checkWordOrder (word_array t) (word_array t)) = false).
  { rewrite (Qgt_bool_comp (a' := 0.8) (b' := 1)); [reflexivity | reflexivity|].
    apply checkWordOrder_same. assumption. }
  rewrite G1, G2, G3. reflexivity.
Qed.

Lemma no_sound_tip_same_text (u t : jsstring) :
  toLowerCase u = toLowerCase t ->
  filter (fun p => includes (sound p) (toLowerCase t)
                   && negb (includes (sound p) (toLowerCase u)))
    PRONUNCIATION_PATTERNS = [].
Proof.
  intros E. rewrite E.
  induction PRONUNCIATION_PATTERNS as [|p ps IH]; [reflexivity|].
  cbn [filter]. rewrite andb_negb_r. assumption.
Qed.

End FeedbackFacts.

(** X15.  [generatePronunciationFeedback] returns from 1 to 8 strings, the
    first of which is the message of the score; it has the tip of a sound
    exactly when the sound is one of the five patterns, occurs in the
    target text and does not occur in the user's text (letter case apart);
    it has the two general tips exactly when the score is below 80. *)
Theorem generatePronunciationFeedback_content
  (userText targetText : jsstring) (score : Q) :
  let fb := generatePronunciationFeedback userText targetText score in
  hd_error fb = Some (score_message score)
  /\ 1 <= length fb <= 8
  /\ (forall s tp,
        In (PracticeSound s tp) fb
        <-> (exists p, In p PRONUNCIATION_PATTERNS /\ sound p = s /\ tip p = tp)
            /\ includes s (toLowerCase targetText) = true
            /\ includes s (toLowerCase userText) = false)
  /\ (In TipReadSlowly fb <-> (score < 80)%Q)
  /\ (In TipMoveMouth fb <-> (score < 80)%Q).
Proof.
  cbv zeta. rewrite generatePronunciationFeedback_closed.
  set (missing := fun p : Pattern =>
         includes (sound p) (toLowerCase targetText)
         && negb (includes (sound p) (toLowerCase userText))).
  set (tips := map (fun p => PracticeSound (sound p) (tip p))
                 (filter missing PRONUNCIATION_PATTERNS)).
  assert (M : forall x, x = score_message score ->
                (forall s tp, x <> PracticeSound s tp)
                /\ x <> TipReadSlowly /\ x <> TipMoveMouth).
  { intros x ->. unfold score_message.
    repeat match goal with
      | |- context [Qle_bool ?a score] => destruct (Qle_bool a score)
      end; repeat split; intros; discriminate. }
  destruct (M _ eq_refl) as (M1 & M2 & M3).
  assert (T : forall x, In x tips -> exists p, In p PRONUNCIATION_PATTERNS
                /\ missing p = true /\ x = PracticeSound (sound p) (tip p)).
  { intros x Hx. apply in_map_iff in Hx as (p & <- & Hp).
    apply filter_In in Hp as [Hp Hm]. exists p. auto. }
  assert (G : forall x,
             In x (if Qle_bool 80 score then [] else [TipReadSlowly; TipMoveMouth])
             <-> (score < 80)%Q /\ (x = TipReadSlowly \/ x = TipMoveMouth)).
  { intros x. destruct (Qle_bool 80 score) eqn:E.
    - apply Qle_bool_iff in E. split; [intros [] | intros [H _]; lra].
    - apply Qle_bool_false in E. cbn [In]. intuition. }
  split; [reflexivity|]. split.
  { cbn [length]. rewrite length_app. unfold tips. rewrite length_map.
    pose proof (filter_length_le missing PRONUNCIATION_PATTERNS) as F.
    change (length PRONUNCIATION_PATTERNS) with 5 in F.
    destruct (Qle_bool 80 score); cbn [length]; lia. }
  split; [|split].
  - intros s tp. cbn [In]. rewrite in_app_iff, G. split.
    + intros [H|[H|[_ [H|H]]]]; try discriminate.
      * elim (M1 s tp H).
      * apply T in H as (p & Hp & Hm & E). injection E as -> ->.
        unfold missing in Hm. apply andb_true_iff in Hm as [H1 H2].
        apply negb_true_iff in H2. split; [exists p|]; auto.
    + intros ((p & Hp & <- & <-) & H1 & H2). right. left.
      unfold tips. apply in_map_iff. exists p. split; [reflexivity|].
      apply filter_In. split; [assumption|].
      unfold missing. rewrite H1, H2. reflexivity.
  - cbn [In]. rewrite in_app_iff, G. split.
    + intros [H|[H|[H _]]]; [congruence | | assumption].
      apply T in H as (p & _ & _ & E). discriminate.
    + intros H. right. right. auto.
  - cbn [In]. rewrite in_app_iff, G. split.
    + intros [H|[H|[H _]]]; [congruence | | assumption].
      apply T in H as (p & _ & _ & E). discriminate.
    + intros H. right. right. auto.
Qed.

Section AttemptFacts.

Lemma has_sound_spec (issues : list jsstring) (s : jsstring) :
  has_sound issues s = true <-> In s issues.
Proof.
  unfold has_sound. rewrite existsb_exists. split.
  - intros (x & Hx & E). destruct (list_eq_dec ascii_dec x s); [subst; assumption | discriminate].
  - intros H. exists s. split; [assumption|].
    destruct (list_eq_dec ascii_dec s s); [reflexivity | contradiction].
Qed.

(** What the loop over [soundChecks] keeps: no sound twice, and a sound is
    listed when it was before or a check with that sound fires. *)
Lemma sound_check_fold (userLower targetLower : jsstring) (checks : list SoundCheck) :
  forall issues,
    NoDup issues ->
    let result := fold_left (sound_check_step userLower targetLower) checks issues in
    NoDup result
    /\ forall s, In s result
         <-> In s issues
             \/ exists c, In c checks /\ check_sound c = s
                  /\ includes (check_target c) targetLower = true
                  /\ includes (check_user c) userLower = true.
Proof.
  induction checks as [|c checks IH]; intros issues ND; cbv zeta.
  - cbn [fold_left]. split; [assumption|].
    intros s. split; [auto | intros [H|(c & [] & _)]; assumption].
  - cbn [fold_left].
    set (issues' := sound_check_step userLower targetLower issues c).
    assert (S1 : NoDup issues'
                 /\ forall s, In s issues'
                      <-> In s issues
                          \/ (check_sound c = s
                              /\ includes (check_target c) targetLower = true
                              /\ includes (check_user c) userLower = true)).
    { subst issues'. unfold sound_check_step.
      destruct (includes (check_target c) targetLower) eqn:E1;
        [destruct (includes (check_user c) userLower) eqn:E2|]; cbn [andb].
      - destruct (has_sound issues (check_sound c)) eqn:E3; cbn [negb].
        + apply has_sound_spec in E3. split; [assumption|].
          intros s. split; [auto | intros [H|(<- & _)]; assumption].
        + assert (N : ~ In (check_sound c) issues).
          { intros H. apply has_sound_spec in H. congruence. }
          split.
          * apply NoDup_app; [assumption | repeat constructor; intros [] |].
            intros x Hx [<-|[]]. contradiction.
          * intros s. rewrite in_app_iff. cbn [In]. intuition.
      - split; [assumption|]. intros s. split; [auto | intros [H|(_ & _ & H)]; [assumption | discriminate]].
      - split; [assumption|]. intros s. split; [auto | intros [H|(_ & H & _)]; [assumption | discriminate]]. }
    destruct S1 as [ND' M'].
    destruct (IH issues' ND') as [ND'' M'']. split; [assumption|].
    intros s. rewrite M'', M'. cbn [In]. split.
    + intros [[H|H]|(c' & Hc & R)].
      * left. assumption.
      * right. exists c. split; [left; reflexivity | assumption].
      * right. exists c'. split; [right; assumption | assumption].
    + intros [H|(c' & [<-|Hc] & R)].
      * left. left. assumption.
      * left. right. assumption.
      * right. exists c'. split; assumption.
Qed.

End AttemptFacts.

(** X16.  [detectSoundIssues] lists a sound exactly when one of the six
    checks with that sound finds its target pattern in the target text and
    its user pattern in the user's text (letter case apart); no sound is
    listed twice, so there are at most five. *)
Theorem detectSoundIssues_content (userText targetText : jsstring) :
  let issues := detectSoundIssues userText targetText in
  NoDup issues
  /\ length issues <= 5
  /\ (forall s, In s issues
        <-> exists c, In c soundChecks /\ check_sound c = s
              /\ includes (check_target c) (toLowerCase targetText) = true
              /\ includes (check_user c) (toLowerCase userText) = true)
  /\ (In (txt "th") issues
      <-> includes (txt "th") (toLowerCase targetText) = true
          /\ (includes (txt "d") (toLowerCase userText) = true
              \/ includes (txt "f") (toLowerCase userText) = true)).
Proof.
  cbv zeta. unfold detectSoundIssues.
  destruct (@sound_check_fold (toLowerCase userText) (toLowerCase targetText)
              soundChecks [] (NoDup_nil _)) as [ND M].
  cbv zeta in ND, M.
  set (issues := fold_left
         (sound_check_step (toLowerCase userText) (toLowerCase targetText))
         soundChecks []) in *.
  assert (M' : forall s, In s issues
                 <-> exists c, In c soundChecks /\ check_sound c = s
                       /\ includes (check_target c) (toLowerCase targetText) = true
                       /\ includes (check_user c) (toLowerCase userText) = true).
  { intros s. rewrite M. split; [intros [[]|H]; assumption | auto]. }
  split; [assumption|]. split; [|split; [assumption|]].
  - apply (@NoDup_incl_length _ issues
             [txt "th"; txt "r"; txt "l"; txt "v"; txt "w"]); [assumption|].
    intros s Hs. apply M' in Hs as (c & Hc & <- & _).
    cbn [soundChecks In] in Hc.
    repeat destruct Hc as [<-|Hc]; cbn; auto 10; try contradiction.
  - rewrite M'. split.
    + intros (c & Hc & Es & H1 & H2). cbn [soundChecks In] in Hc.
      repeat destruct Hc as [<-|Hc]; try discriminate Es; cbn in H1, H2; auto;
        try contradiction.
    + intros [H1 [H2|H2]].
      * exists (mkSoundCheck (txt "th") (txt "d") (txt "th")).
        cbn [soundChecks In]. auto.
      * exists (mkSoundCheck (txt "th") (txt "f") (txt "th")).
        cbn [soundChecks In]. auto.
Qed.

(** X17.  [generateTechnicalFeedback] never gives both the advice to speak
    all the words and the advice to avoid extra words; it gives at most
    three strings. *)
Theorem generateTechnicalFeedback_exclusive (userText targetText : jsstring) :
  let fb := generateTechnicalFeedback userText targetText in
  ~ (In SpeakAllWords fb /\ In AvoidExtraWords fb) /\ length fb <= 3.
Proof.
  cbv zeta. unfold generateTechnicalFeedback.
  set (nu := num (length (split_ws (trim (toLowerCase userText))))).
  set (nt := num (length (split_ws (trim (toLowerCase targetText))))).
  assert (Pt : (0 <= nt)%Q) by apply num_nonneg.
  set (order := Qgt_bool 0.8 _). set (sounds := 0 <? _).
  set (item := FocusOnSounds _).
  destruct (Qgt_bool (nt * 0.7) nu) eqn:G1, (Qgt_bool nu (nt * 1.3)) eqn:G2.
  - apply Qgt_bool_true in G1, G2. lra.
  - destruct order, sounds; cbn; split; try lia;
      intros [_ H]; intuition discriminate.
  - destruct order, sounds; cbn; split; try lia;
      intros [H _]; intuition discriminate.
  - destruct order, sounds; cbn; split; try lia;
      intros [H _]; intuition discriminate.
Qed.

(** ** A whole attempt *)

Section WholeAttempt.

Lemma score_message_below_80 (score : Q) :
  (score <= 74)%Q ->
  score_message score = GoodEffort \/ score_message score = KeepPracticing
  \/ score_message score = TakesTime.
Proof.
  intros H. unfold score_message.
  destruct (Qle_bool 90 score) eqn:E1; [grade_cases; lra|].
  destruct (Qle_bool 80 score) eqn:E2; [grade_cases; lra|].
  destruct (Qle_bool 70 score); [auto|].
  destruct (Qle_bool 60 score); auto.
Qed.

Lemma getLetterGrade_at_most_C (score : Q) :
  (score <= 74)%Q -> grade_rank (getLetterGrade score) <= grade_rank C.
Proof.
  intros H. unfold getLetterGrade.
  repeat match goal with
    | |- context [Qle_bool ?a score] => destruct (Qle_bool a score) eqn:?
    end; cbn [grade_rank]; try lia; grade_cases; lra.
Qed.

Lemma compareTexts_Q_le_74 (u t : jsstring) : (inject_Z (compareTexts u t) <= 74)%Q.
Proof.
  change 74%Q with (inject_Z 74). rewrite <- Zle_Qle. apply compareTexts_le_74.
Qed.

End WholeAttempt.

(** X18.  [processRecording] throws when there is no speech recognition.
    Otherwise its score is [compareTexts] of the transcription and the
    target, from 0 to 74; the letter grade is never better than C; the
    feedback starts with one of the three messages for scores below 80 and
    always has the two general tips. *)
Theorem processRecording_result
  (supported : bool) (size : Q) (targetText : jsstring) :
  match processRecording supported size targetText with
  | None => supported = false
  | Some r =>
      supported = true
      /\ transcription r = simulateTranscription size
      /\ score r = compareTexts (transcription r) targetText
      /\ (0 <= score r <= 74)%Z
      /\ letterGrade r = getLetterGrade (inject_Z (score r))
      /\ grade_rank (letterGrade r) <= grade_rank C
      /\ (exists item rest,
             feedback r = item :: rest
             /\ (item = GoodEffort \/ item = KeepPracticing \/ item = TakesTime))
      /\ In TipReadSlowly (feedback r) /\ In TipMoveMouth (feedback r)
  end.
Proof.
  unfold processRecording, transcribeAudio.
  destruct supported; [|reflexivity].
  set (tr := simulateTranscription size).
  unfold evaluate. cbn [transcription score feedback letterGrade].
  pose proof (compareTexts_range tr targetText) as R.
  pose proof (compareTexts_le_74 tr targetText) as R74.
  pose proof (compareTexts_Q_le_74 tr targetText) as Q74.
  set (s := compareTexts tr targetText) in *.
  assert (B : Qle_bool 80 (inject_Z s) = false).
  { destruct (Qle_bool 80 (inject_Z s)) eqn:E; [|reflexivity]. grade_cases. lra. }
  repeat split; try lia.
  - apply getLetterGrade_at_most_C. assumption.
  - unfold generateFeedback. rewrite generatePronunciationFeedback_closed.
    eexists. eexists. split; [reflexivity|].
    apply score_message_below_80. assumption.
  - unfold generateFeedback. rewrite generatePronunciationFeedback_closed, B.
    cbn [In]. right. rewrite !in_app_iff. cbn [In]. auto.
  - unfold generateFeedback. rewrite generatePronunciationFeedback_closed, B.
    cbn [In]. right. rewrite !in_app_iff. cbn [In]. auto.
Qed.

(** X19.  A reading that gives the target text back exactly (letter case
    apart, the text not being blank) scores 74 and
    gets the grade C; its feedback is "Good effort! There are some
    pronunciation patterns to work on.", the two general tips, "Keep
    improving! You're on the right track.", "Practice reading aloud daily
    to build muscle memory." and, when [detectSoundIssues] finds any, the
    sounds to focus on. *)
Theorem perfect_reading_feedback (userText targetText : jsstring) :
  blank userText = false ->
  toLowerCase userText = toLowerCase targetText ->
  evaluate userText targetText
  = mkResult userText 74
      ([GoodEffort; TipReadSlowly; TipMoveMouth; KeepImproving; ReadAloudDaily]
       ++ (if 0 <? length (detectSoundIssues userText targetText)
           then [FocusOnSounds (detectSoundIssues userText targetText)]
           else []))
      C.
Proof.
  intros B E.
  assert (Hu : is_empty userText = false) by (apply nonblank_nonempty, B).
  assert (Ht : is_empty targetText = false).
  { rewrite <- is_empty_lower, <- E, is_empty_lower. assumption. }
  assert (A : word_array userText = word_array targetText)
    by (unfold word_array; rewrite E; reflexivity).
  destruct (compareTexts_same_words userText targetText Hu Ht A) as [S _].
  unfold evaluate. rewrite S. unfold generateFeedback.
  rewrite generatePronunciationFeedback_closed, no_sound_tip_same_text by assumption.
  rewrite generateTechnicalFeedback_same by assumption.
  reflexivity.
Qed.

Lemma perfect_reading_feedback_witness :
  evaluate (txt "Hello world") (txt "hello world")
  = mkResult (txt "Hello world") 74
      ([GoodEffort; TipReadSlowly; TipMoveMouth; KeepImproving; ReadAloudDaily]
       ++ (if 0 <? length (detectSoundIssues (txt "Hello world") (txt "hello world"))
           then [FocusOnSounds (detectSoundIssues (txt "Hello world") (txt "hello world"))]
           else []))
      C.
Proof.
  apply (@perfect_reading_feedback (txt "Hello world") (txt "hello world"));
    reflexivity.
Defined.

(** ** Letter case and the difficulty of a text *)

Section CaseFacts.







End CaseFacts.



(** ** The practice history *)

Section HistoryFacts.

Lemma sum_scores_acc (l : list Q) (acc : Q) :
  (fold_left Qplus l acc == acc + sum_scores l)%Q.
Proof.
  unfold sum_scores. revert acc. induction l as [|x l IH]; intros acc.
  - cbn [fold_left]. ring.
  - cbn [fold_left]. rewrite (IH (acc + x)%Q), (IH (0 + x)%Q). ring.
Qed.

Lemma sum_scores_cons (x : Q) (l : list Q) :
  (sum_scores (x :: l) == x + sum_scores l)%Q.
Proof.
  unfold sum_scores at 1. cbn [fold_left]. rewrite sum_scores_acc. ring.
Qed.

Lemma sum_scores_lower (lo : Q) (l : list Q) :
  Forall (fun s => (lo <= s)%Q) l -> (num (length l) * lo <= sum_scores l)%Q.
Proof.
  induction 1 as [|x l Hx _ IH].
  - cbn [length]. change (num 0) with 0%Q. unfold sum_scores. cbn [fold_left]. lra.
  - rewrite sum_scores_cons. cbn [length]. rewrite num_S. lra.
Qed.

Lemma sum_scores_upper (hi : Q) (l : list Q) :
  Forall (fun s => (s <= hi)%Q) l -> (sum_scores l <= num (length l) * hi)%Q.
Proof.
  induction 1 as [|x l Hx _ IH].
  - cbn [length]. change (num 0) with 0%Q. unfold sum_scores. cbn [fold_left]. lra.
  - rewrite sum_scores_cons. cbn [length]. rewrite num_S. lra.
Qed.

Lemma sum_scores_upper_strict (hi : Q) (l : list Q) :
  Forall (fun s => (s < hi)%Q) l -> l <> [] ->
  (sum_scores l < num (length l) * hi)%Q.
Proof.
  intros H N. destruct H as [|x l Hx H]; [congruence|].
  assert (U : (sum_scores l <= num (length l) * hi)%Q).
  { apply sum_scores_upper. eapply Forall_impl; [|exact H].
    intros s Hs. cbn beta in Hs. lra. }
  rewrite sum_scores_cons. cbn [length]. rewrite num_S. lra.
Qed.

Lemma sum_scores_zero (l : list Q) :
  Forall (fun s => (s == 0)%Q) l -> (sum_scores l == 0)%Q.
Proof.
  induction 1 as [|x l Hx _ IH].
  - reflexivity.
  - rewrite sum_scores_cons. lra.
Qed.

Lemma average_lower (lo : Q) (l : list Q) :
  l <> [] -> Forall (fun s => (lo <= s)%Q) l ->
  (lo <= sum_scores l / num (length l))%Q.
Proof.
  intros N H. apply sum_scores_lower in H.
  assert (P : (0 < num (length l))%Q).
  { apply num_pos. destruct l; [congruence|cbn [length]; lia]. }
  apply Qle_shift_div_l; [exact P|]. lra.
Qed.

Lemma average_upper (hi : Q) (l : list Q) :
  l <> [] -> Forall (fun s => (s <= hi)%Q) l ->
  (sum_scores l / num (length l) <= hi)%Q.
Proof.
  intros N H. apply sum_scores_upper in H.
  assert (P : (0 < num (length l))%Q).
  { apply num_pos. destruct l; [congruence|cbn [length]; lia]. }
  apply Qle_shift_div_r; [exact P|]. lra.
Qed.

Lemma average_upper_strict (hi : Q) (l : list Q) :
  l <> [] -> Forall (fun s => (s < hi)%Q) l ->
  (sum_scores l / num (length l) < hi)%Q.
Proof.
  intros N H. apply sum_scores_upper_strict in H; [|exact N].
  assert (P : (0 < num (length l))%Q).
  { apply num_pos. destruct l; [congruence|cbn [length]; lia]. }
  apply Qlt_shift_div_r; [exact P|]. lra.
Qed.

Lemma slice_index_neg (n : nat) (i : Z) :
  (i < 0)%Z -> slice_index n i = n - Z.to_nat (- i).
Proof.
  intros K. unfold slice_index.
  destruct (Z.ltb_spec i 0); lia.
Qed.

Lemma slice_from_last (A : Type) (l : list A) (i : Z) :
  (i < 0)%Z -> slice_from l i = skipn (length l - Z.to_nat (- i)) l.
Proof. intros K. unfold slice_from. rewrite slice_index_neg by exact K. reflexivity. Qed.

Lemma slice_from_length (A : Type) (l : list A) (i : Z) :
  (i < 0)%Z -> length (slice_from l i) = Nat.min (Z.to_nat (- i)) (length l).
Proof. intros K. rewrite slice_from_last by exact K. rewrite length_skipn. lia. Qed.

Lemma slice_from_suffix (A : Type) (l : list A) (start : Z) :
  exists older, l = older ++ slice_from l start.
Proof.
  exists (firstn (slice_index (length l) start) l).
  unfold slice_from. symmetry. apply firstn_skipn.
Qed.

Lemma slice_length (A : Type) (l : list A) :
  length (slice l (-10) (-5)) = Nat.min 5 (length l - 5).
Proof.
  unfold slice.
  rewrite (slice_index_neg (length l) (i := -5)) by lia.
  rewrite (slice_index_neg (length l) (i := -10)) by lia.
  rewrite length_firstn, length_skipn. lia.
Qed.

Lemma Forall_skipn_keep (A : Type) (P : A -> Prop) (n : nat) (l : list A) :
  Forall P l -> Forall P (skipn n l).
Proof.
  intros H. rewrite <- (firstn_skipn n l) in H.
  apply Forall_app in H. tauto.
Qed.

Lemma recordSession_sessionHistory (score : Q) (a : Agent) :
  sessionHistory (recordSession score a)
  = skipn (length (sessionHistory a ++ [score]) - 50) (sessionHistory a ++ [score]).
Proof.
  unfold recordSession, saveStats. cbn [sessionHistory].
  destruct (Nat.ltb_spec 50 (length (sessionHistory a ++ [score]))) as [L|L].
  - rewrite (slice_from_last (sessionHistory a ++ [score]) (i := -50)) by lia.
    f_equal.
  - replace (length (sessionHistory a ++ [score]) - 50) with 0 by lia. reflexivity.
Qed.

Lemma recordSession_fold (scores : list Q) (a : Agent) :
  sessionHistory (fold_left (fun a s => recordSession s a) scores a)
  = skipn (length (sessionHistory a ++ scores) - 50 ) (sessionHistory a ++ scores)
  \/ 50 < length (sessionHistory a).
Proof.
  revert a. induction scores as [|s scores IH]; intros a.
  - cbn [fold_left]. rewrite app_nil_r.
    destruct (Nat.ltb_spec 50 (length (sessionHistory a))) as [L|L]; [right; exact L|].
    left. replace (length (sessionHistory a) - 50) with 0 by lia. reflexivity.
  - cbn [fold_left].
    destruct (Nat.ltb_spec 50 (length (sessionHistory a))) as [L|L]; [right; exact L|].
    left. destruct (IH (recordSession s a)) as [E|E].
    2:{ rewrite recordSession_sessionHistory, length_skipn in E. lia. }
    rewrite E, recordSession_sessionHistory.
    set (h := sessionHistory a ++ [s]).
    replace (sessionHistory a ++ s :: scores) with (h ++ scores)
      by (unfold h; rewrite <- app_assoc; reflexivity).
    assert (Hh : length h <= 51) by (unfold h; rewrite length_app; cbn [length]; lia).
    rewrite !length_app, length_skipn.
    rewrite (skipn_app (length h + length scores - 50) h scores).
    rewrite (skipn_app (length h - (length h - 50) + length scores - 50)
               (skipn (length h - 50) h) scores).
    rewrite skipn_skipn, length_skipn.
    f_equal; f_equal; lia.
Qed.

Lemma trend_value (a : Agent) :
  6 <= length (sessionHistory a) ->
  let recent := slice_from (sessionHistory a) (-5) in
  let earlier := slice (sessionHistory a) (-10) (-5) in
  let difference :=
    (sum_scores recent / num (length recent)
     - sum_scores earlier / num (length earlier))%Q in
  getProgressTrend a
  = mkProgressTrend
      (if Qgt_bool 2 (Qabs difference) then stable
       else if Qgt_bool difference 0 then improving else declining)
      (option_map Z.abs
         (if Qeq_bool (sum_scores earlier / num (length earlier)) 0 then None
          else Some (Math_round
                       (difference / (sum_scores earlier / num (length earlier))
                        * 100)%Q))).
Proof.
  intros L. unfold getProgressTrend.
  destruct (Nat.ltb_spec (length (sessionHistory a)) 3); [lia|].
  destruct (Nat.eqb_spec (length (slice (sessionHistory a) (-10) (-5))) 0) as [E|E].
  - rewrite slice_length in E. lia.
  - reflexivity.
Qed.

Lemma trend_short (a : Agent) :
  length (sessionHistory a) < 6 ->
  getProgressTrend a = mkProgressTrend insufficient_data (Some 0%Z).
Proof.
  intros L. unfold getProgressTrend.
  destruct (Nat.ltb_spec (length (sessionHistory a)) 3); [reflexivity|].
  destruct (Nat.eqb_spec (length (slice (sessionHistory a) (-10) (-5))) 0) as [E|E].
  - reflexivity.
  - rewrite slice_length in E. lia.
Qed.

Lemma getProgressTrend_short_or_long (a : Agent) :
  (length (sessionHistory a) < 6
   /\ getProgressTrend a = mkProgressTrend insufficient_data (Some 0%Z))
  \/ (6 <= length (sessionHistory a)
      /\ trend (getProgressTrend a) <> insufficient_data).
Proof.
  destruct (Nat.lt_ge_cases (length (sessionHistory a)) 6) as [L|L].
  - left. split; [exact L|apply trend_short; exact L].
  - right. split; [exact L|]. rewrite (trend_value a L). cbn [trend].
    destruct (Qgt_bool 2 _); [discriminate|].
    destruct (Qgt_bool _ 0); discriminate.
Qed.

End HistoryFacts.

(** X21.  [recordSession] appends the score and keeps the last 50 entries:
    the new history is a suffix of the old one with the score added, it has
    [min 50 (n + 1)] entries, it ends with the score, and it is what is
    written to the storage. *)
Theorem recordSession_history (score : Q) (a : Agent) :
  let a' := recordSession score a in
  length (sessionHistory a') = Nat.min 50 (S (length (sessionHistory a)))
  /\ (exists dropped, sessionHistory a ++ [score] = dropped ++ sessionHistory a')
  /\ last (sessionHistory a') 0%Q = score
  /\ stored a' = Some (sessionHistory a').
Proof.
  intros a'. unfold a'.
  assert (St : stored (recordSession score a)
              = Some (sessionHistory (recordSession score a))) by reflexivity.
  revert St. rewrite !recordSession_sessionHistory. intros St.
  set (h := sessionHistory a ++ [score]) in *.
  assert (Hh : length h = S (length (sessionHistory a)))
    by (unfold h; rewrite length_app; cbn [length]; lia).
  repeat split.
  - rewrite length_skipn. lia.
  - exists (firstn (length h - 50) h). symmetry. apply firstn_skipn.
  - unfold h at 2.
    rewrite skipn_app.
    replace (length h - 50 - length (sessionHistory a)) with 0 by lia.
    cbn [skipn]. apply last_last.
  - exact St.
Qed.

(** X22.  Recording a series of scores with a fresh agent (nothing in the
    storage) leaves the last 50 of them as the history, and [getStats]
    then reports [min 50 n] sessions and the last 10 scores. *)
Theorem recordSession_series (scores : list Q) :
  let a := fold_left (fun a s => recordSession s a) scores (newAgent None) in
  sessionHistory a = slice_from scores (-50)
  /\ sessionsCompleted (getStats a) = Nat.min 50 (length scores)
  /\ recentScores (getStats a) = slice_from scores (-10).
Proof.
  intros a.
  assert (E : sessionHistory a = skipn (length scores - 50) scores).
  { unfold a. destruct (recordSession_fold scores (newAgent None)) as [E|E].
    - exact E.
    - cbn in E. lia. }
  split; [|split].
  - rewrite E. rewrite (slice_from_last scores (i := -50)) by lia. f_equal.
  - unfold getStats. cbn [sessionsCompleted]. rewrite E, length_skipn. lia.
  - unfold getStats. cbn [recentScores]. rewrite E.
    rewrite (slice_from_last scores (i := -10)) by lia.
    rewrite (slice_from_last (skipn (length scores - 50) scores) (i := -10)) by lia.
    rewrite skipn_skipn, length_skipn. f_equal. lia.
Qed.

(** X23.  [getStats]: when every recorded score is between 0 and 100, so is
    the average; the recent scores are the last [min 10 n] entries of the
    history. *)
Theorem getStats_range (a : Agent) :
  Forall (fun s => (0 <= s <= 100)%Q) (sessionHistory a) ->
  let stats := getStats a in
  sessionsCompleted stats = length (sessionHistory a)
  /\ (0 <= averageScore stats <= 100)%Z
  /\ length (recentScores stats) = Nat.min 10 (length (sessionHistory a))
  /\ exists older, sessionHistory a = older ++ recentScores stats.
Proof.
  intros H stats. unfold stats, getStats.
  cbn [sessionsCompleted averageScore recentScores].
  split; [reflexivity|]. split; [|split].
  - destruct (Nat.ltb_spec 0 (length (sessionHistory a))) as [L|L]; [|lia].
    assert (N : sessionHistory a <> []) by (destruct (sessionHistory a); [cbn in L; lia|congruence]).
    apply (@Math_round_range 0 100). split.
    + apply (average_lower (lo := inject_Z 0) N).
      eapply Forall_impl; [|exact H]. intros s Hs. cbn beta in Hs.
      change (inject_Z 0) with 0%Q. lra.
    + apply (average_upper (hi := inject_Z 100) N).
      eapply Forall_impl; [|exact H]. intros s Hs. cbn beta in Hs.
      change (inject_Z 100) with 100%Q. lra.
  - rewrite (slice_from_length (sessionHistory a) (i := -10)) by lia. reflexivity.
  - apply slice_from_suffix.
Qed.

Lemma getStats_range_witness :
  let stats := getStats (recordSession 80 (recordSession 71 (newAgent None))) in
  sessionsCompleted stats = 2
  /\ (0 <= averageScore stats <= 100)%Z
  /\ length (recentScores stats) = 2
  /\ exists older, [71%Q; 80%Q] = older ++ recentScores stats.
Proof.
  apply (@getStats_range (recordSession 80 (recordSession 71 (newAgent None)))).
  cbn. repeat constructor; cbn; lra.
Defined.

(** X24.  [getProgressTrend] answers [insufficient_data] exactly when the
    history has fewer than 6 sessions (not 3: with 3 to 5 sessions there is
    no earlier group to compare with), and then the percentage is 0; a
    percentage that is a number is never negative. *)
Theorem getProgressTrend_insufficient (a : Agent) :
  (trend (getProgressTrend a) = insufficient_data
   <-> length (sessionHistory a) < 6)
  /\ (length (sessionHistory a) < 6 ->
      trendPercentage (getProgressTrend a) = Some 0%Z)
  /\ (forall p, trendPercentage (getProgressTrend a) = Some p -> (0 <= p)%Z).
Proof.
  destruct (Nat.lt_ge_cases (length (sessionHistory a)) 6) as [L|L].
  - rewrite (trend_short a L). cbn [trend trendPercentage].
    split; [tauto|]. split; [reflexivity|]. intros p [= <-]. lia.
  - rewrite (trend_value a L). cbn [trend trendPercentage].
    split; [|split].
    + split; [|lia].
      destruct (Qgt_bool 2 _); [discriminate|].
      destruct (Qgt_bool _ 0); discriminate.
    + lia.
    + intros p. destruct (Qeq_bool _ 0); cbn [option_map]; [discriminate|].
      intros [= <-]. apply Z.abs_nonneg.
Qed.

(** X25.  When the history has at least 6 sessions and the earlier group
    (sessions 10 to 6 from the end) has only scores of 0, the percentage of
    [getProgressTrend] is not a finite number: the change is divided by an
    average of 0. *)
Theorem getProgressTrend_not_finite (a : Agent) :
  6 <= length (sessionHistory a) ->
  Forall (fun s => (s == 0)%Q) (slice (sessionHistory a) (-10) (-5)) ->
  trendPercentage (getProgressTrend a) = None.
Proof.
  intros L Z. rewrite (trend_value a L). cbn [trendPercentage].
  apply sum_scores_zero in Z.
  assert (E : (sum_scores (slice (sessionHistory a) (-10) (-5))
               / num (length (slice (sessionHistory a) (-10) (-5))) == 0)%Q).
  { rewrite Z. unfold Qdiv. lra. }
  apply Qeq_bool_iff in E. rewrite E. reflexivity.
Qed.

Lemma getProgressTrend_not_finite_witness :
  trendPercentage
    (getProgressTrend (mkAgent [0; 0; 0; 70; 80; 90; 85; 75]%Q None)) = None.
Proof.
  apply (@getProgressTrend_not_finite (mkAgent [0; 0; 0; 70; 80; 90; 85; 75]%Q None)).
  - cbn. lia.
  - cbn. repeat constructor.
Defined.

(** X26.  [getRecommendedDifficulty] is one of 1, 2, 3, 4, 6, 8, and 3 exactly
    when fewer than 3 sessions are recorded; with at least 3 sessions it is 8
    when each of the last five scores is at least 90, and 1 when each is
    below 60. *)
Theorem getRecommendedDifficulty_levels (a : Agent) :
  In (getRecommendedDifficulty a) [1; 2; 3; 4; 6; 8]%Z
  /\ (getRecommendedDifficulty a = 3%Z <-> length (sessionHistory a) < 3)
  /\ (3 <= length (sessionHistory a) ->
      Forall (fun s => (90 <= s)%Q) (slice_from (sessionHistory a) (-5)) ->
      getRecommendedDifficulty a = 8%Z)
  /\ (3 <= length (sessionHistory a) ->
      Forall (fun s => (s < 60)%Q) (slice_from (sessionHistory a) (-5)) ->
      getRecommendedDifficulty a = 1%Z).
Proof.
  unfold getRecommendedDifficulty.
  destruct (Nat.ltb_spec (length (sessionHistory a)) 3) as [L|L].
  - split; [cbn; tauto|]. split; [tauto|]. split; intros; lia.
  - change 5 with (Z.to_nat (- (-5))).
    rewrite <- (slice_from_length (sessionHistory a) (i := -5)) by lia.
    set (recent := slice_from (sessionHistory a) (-5)).
    assert (N : recent <> []).
    { intros E. apply (f_equal (@length Q)) in E. unfold recent in E.
      rewrite (slice_from_length (sessionHistory a) (i := -5)) in E by lia.
      cbn [length] in E. lia. }
    split; [|split; [|split]].
    + destruct (Qle_bool 90 _); [cbn; tauto|].
      destruct (Qle_bool 80 _); [cbn; tauto|].
      destruct (Qle_bool 70 _); [cbn; tauto|].
      destruct (Qle_bool 60 _); cbn; tauto.
    + split; [|lia].
      destruct (Qle_bool 90 _); [discriminate|].
      destruct (Qle_bool 80 _); [discriminate|].
      destruct (Qle_bool 70 _); [discriminate|].
      destruct (Qle_bool 60 _); discriminate.
    + intros _ H. apply (average_lower N) in H.
      apply Qle_bool_iff in H. rewrite H. reflexivity.
    + intros _ H. apply (average_upper_strict N) in H.
      destruct (Qle_bool 90 _) eqn:E1; [apply Qle_bool_iff in E1; lra|].
      destruct (Qle_bool 80 _) eqn:E2; [apply Qle_bool_iff in E2; lra|].
      destruct (Qle_bool 70 _) eqn:E3; [apply Qle_bool_iff in E3; lra|].
      destruct (Qle_bool 60 _) eqn:E4; [apply Qle_bool_iff in E4; lra|].
      reflexivity.
Qed.

(** X27.  [getPersonalizedRecommendations] always gives between one and five
    recommendations. *)
Theorem getPersonalizedRecommendations_count (a : Agent) :
  1 <= length (getPersonalizedRecommendations a) <= 5.
Proof.
  unfold getPersonalizedRecommendations.
  pose proof (getProgressTrend_short_or_long a) as T.
  rewrite !length_app.
  cbn [sessionsCompleted getStats].
  destruct T as [[L E]|[L T]].
  - rewrite E. cbn [trend length].
    destruct (Nat.eqb_spec (length (sessionHistory a)) 0).
    + cbn [length]. destruct (_ <? 60)%Z; [cbn; lia|].
      destruct (_ <? 80)%Z; [cbn; lia|]. destruct (90 <=? _)%Z; cbn; lia.
    + destruct (Nat.ltb_spec (length (sessionHistory a)) 7); [|lia].
      cbn [length]. destruct (_ <? 60)%Z; [cbn; lia|].
      destruct (_ <? 80)%Z; [cbn; lia|]. destruct (90 <=? _)%Z; cbn; lia.
  - assert (F : length (if length (sessionHistory a) =? 0 then [StartDaily]
                        else if length (sessionHistory a) <? 7 then [PracticeConsistently]
                        else if 30 <=? length (sessionHistory a) then [GreatConsistency]
                        else []) <= 1).
    { destruct (_ =? 0); [cbn; lia|]. destruct (_ <? 7); [cbn; lia|].
      destruct (30 <=? _); cbn; lia. }
    assert (P : length (if (averageScore (getStats a) <? 60)%Z
                        then [SpeakSlowlyClearly; ShorterTexts]
                        else if (averageScore (getStats a) <? 80)%Z
                        then [VaryMaterials; ConsistencyAcrossTexts]
                        else if (90 <=? averageScore (getStats a))%Z
                        then [ChallengeComplexTexts; AccentsOrSpeeds]
                        else []) <= 2).
    { destruct (_ <? 60)%Z; [cbn; lia|].
      destruct (_ <? 80)%Z; [cbn; lia|]. destruct (90 <=? _)%Z; cbn; lia. }
    destruct (trend (getProgressTrend a)) eqn:Et; cbn [length]; try lia. congruence.
Qed.

Lemma getProgressTrend_insufficient_witness :
  trendPercentage (getProgressTrend (mkAgent [80; 90; 85; 70]%Q None)) = Some 0%Z.
Proof.
  apply (proj1 (proj2 (@getProgressTrend_insufficient
                         (mkAgent [80; 90; 85; 70]%Q None)))).
  cbn. lia.
Defined.

Lemma getRecommendedDifficulty_levels_witness :
  getRecommendedDifficulty (mkAgent [95; 90; 92]%Q None) = 8%Z.
Proof.
  apply (proj1 (proj2 (proj2 (@getRecommendedDifficulty_levels
                                (mkAgent [95; 90; 92]%Q None))))).
  - cbn. lia.
  - cbn. repeat constructor; cbn; lra.
Defined.

(** ** Storage and import *)

(** X28.  What [recordSession], [resetStats] and a successful [importData]
    leave in the storage is the history: a new agent made over it starts
    with the same history.  [importData] accepts the data exactly when every
    score is between 0 and 100, then takes it as the history whatever its
    length (the limit of 50 is not applied), and otherwise changes
    nothing. *)
Theorem history_persists (a : Agent) (score : Q) (data : list Q) :
  sessionHistory (newAgent (stored (recordSession score a)))
  = sessionHistory (recordSession score a)
  /\ sessionHistory (newAgent (stored (resetStats a))) = []
  /\ (snd (importData data a) = true
      <-> Forall (fun s => (0 <= s <= 100)%Q) data)
  /\ (snd (importData data a) = true ->
      sessionHistory (fst (importData data a)) = data
      /\ sessionHistory (newAgent (stored (fst (importData data a)))) = data)
  /\ (snd (importData data a) = false -> fst (importData data a) = a).
Proof.
  split; [reflexivity|]. split; [reflexivity|].
  unfold importData.
  destruct (forallb _ data) eqn:E; cbn [fst snd].
  - split; [|split; [split; reflexivity|discriminate]].
    split; [intros _|reflexivity].
    rewrite forallb_forall in E. apply Forall_forall. intros s Hs.
    apply E in Hs. apply andb_true_iff in Hs. destruct Hs as [L H].
    apply Qle_bool_iff in L, H. split; assumption.
  - split; [|split; [discriminate|reflexivity]].
    split; [discriminate|]. intros H. exfalso.
    assert (T : forallb (fun score => Qle_bool 0 score && Qle_bool score 100) data = true).
    { apply forallb_forall. intros s Hs. rewrite Forall_forall in H.
      apply H in Hs. destruct Hs as [L U].
      apply andb_true_iff. split; apply Qle_bool_iff; assumption. }
    congruence.
Qed.

Lemma history_persists_witness :
  sessionHistory (fst (importData [70; 80]%Q (newAgent None))) = [70; 80]%Q
  /\ sessionHistory
       (newAgent (stored (fst (importData [70; 80]%Q (newAgent None)))))
     = [70; 80]%Q.
Proof.
  apply (proj1 (proj2 (proj2 (proj2
           (@history_persists (newAgent None) 0%Q [70; 80]%Q))))).
  reflexivity.
Defined.

(** ** Choosing a text *)

Section ChoiceFacts.

Lemma random_element_in (A : Type) (l : list A) (random : Q) :
  l <> [] -> (0 <= random < 1)%Q ->
  exists x, random_element l random = Some x /\ In x l.
Proof.
  intros N [L U].
  assert (P : (0 < num (length l))%Q).
  { apply num_pos. destruct l; [congruence|cbn [length]; lia]. }
  unfold random_element, array_get.
  set (i := Qfloor (random * num (length l))).
  assert (I0 : (0 <= i)%Z).
  { unfold i. apply Z.le_trans with (Qfloor (inject_Z 0)).
    - rewrite Qfloor_Z. lia.
    - apply Qfloor_resp_le. change (inject_Z 0) with 0%Q. nra. }
  assert (I1 : (i < Z.of_nat (length l))%Z).
  { rewrite Zlt_Qlt. eapply Qle_lt_trans; [apply Qfloor_le|].
    fold (num (length l)). nra. }
  destruct (Z.ltb_spec i 0) as [|_]; [lia|].
  destruct (nth_error l (Z.to_nat i)) as [x|] eqn:E.
  - exists x. split; [reflexivity|]. eapply nth_error_In. exact E.
  - apply nth_error_None in E. lia.
Qed.

Lemma In_ALL_PHRASES_level (level : Level) (p : jsstring) :
  In p (match level with
        | basic => BASIC_PHRASES
        | intermediate => INTERMEDIATE_PHRASES
        | advanced => ADVANCED_PHRASES
        end) -> In p ALL_PHRASES.
Proof.
  unfold ALL_PHRASES. intros H. rewrite !in_app_iff. destruct level; tauto.
Qed.

Lemma In_ALL_PHRASES_sound (sound : SoundFocus) (p : jsstring) :
  In p (SOUND_FOCUS_PHRASES sound) -> In p ALL_PHRASES.
Proof.
  unfold ALL_PHRASES. intros H. rewrite !in_app_iff. right. right. right.
  apply in_concat. exists (SOUND_FOCUS_PHRASES sound). split; [|exact H].
  apply in_map. destruct sound; cbn; tauto.
Qed.

End ChoiceFacts.

(** X29.  For a value of [Math.random()], which is at least 0 and below 1,
    every selector returns an entry of the list it draws from:
    [getRandomPracticeText] one of [PRACTICE_TEXTS], [getRandomPhrase] one
    of [ALL_PHRASES], [getPhraseByLevel] a phrase of the asked level and
    [getPhraseBySound] a phrase of the asked sound, both of which are also
    in [ALL_PHRASES]. *)
Theorem random_selection (random : Q) (level : Level) (sound : SoundFocus) :
  (0 <= random < 1)%Q ->
  (exists t, getRandomPracticeText random = Some t /\ In t PRACTICE_TEXTS)
  /\ (exists p, getRandomPhrase random = Some p /\ In p ALL_PHRASES)
  /\ (exists p, getPhraseByLevel level random = Some p
                /\ In p (match level with
                         | basic => BASIC_PHRASES
                         | intermediate => INTERMEDIATE_PHRASES
                         | advanced => ADVANCED_PHRASES
                         end)
                /\ In p ALL_PHRASES)
  /\ (exists p, getPhraseBySound sound random = Some p
                /\ In p (SOUND_FOCUS_PHRASES sound)
                /\ In p ALL_PHRASES).
Proof.
  intros R. split; [|split; [|split]].
  - apply random_element_in; [discriminate|exact R].
  - apply random_element_in; [discriminate|exact R].
  - destruct (@random_element_in _
                (match level with
                 | basic => BASIC_PHRASES
                 | intermediate => INTERMEDIATE_PHRASES
                 | advanced => ADVANCED_PHRASES
                 end) random) as [p [E I]]; [destruct level; discriminate|exact R|].
    exists p. split; [exact E|]. split; [exact I|].
    apply (In_ALL_PHRASES_level level). exact I.
  - destruct (@random_element_in _ (SOUND_FOCUS_PHRASES sound) random)
      as [p [E I]]; [destruct sound; discriminate|exact R|].
    exists p. split; [exact E|]. split; [exact I|].
    apply (In_ALL_PHRASES_sound sound). exact I.
Qed.

Lemma random_selection_witness :
  (exists t, getRandomPracticeText (7 # 10) = Some t /\ In t PRACTICE_TEXTS)
  /\ (exists p, getRandomPhrase (7 # 10) = Some p /\ In p ALL_PHRASES)
  /\ (exists p, getPhraseByLevel advanced (7 # 10) = Some p
                /\ In p ADVANCED_PHRASES /\ In p ALL_PHRASES)
  /\ (exists p, getPhraseBySound focus_th (7 # 10) = Some p
                /\ In p (SOUND_FOCUS_PHRASES focus_th) /\ In p ALL_PHRASES).
Proof.
  apply (@random_selection (7 # 10) advanced focus_th).
  split; [discriminate|reflexivity].
Defined.

(** ** The share of words in place *)

Section WordOrderFacts.

Lemma word_order_count (U T : list jsstring) :
  fold_left (word_order_step U T) (seq 0 (Nat.min (length U) (length T))) 0
  = length (filter (fun b : bool => b) (positional_matches U T)).
Proof.
  unfold word_order_step.
  rewrite (fold_index_combine
             (fun x u t => if list_eq_dec ascii_dec u t then x + 1 else x)).
  assert (G : forall n, fold_left
                (fun x p => if list_eq_dec ascii_dec (fst p) (snd p) then x + 1 else x)
                (combine U T) n
              = n + length (filter (fun b : bool => b) (positional_matches U T))).
  { revert T. induction U as [|u U IH]; intros T n; [simpl; lia|].
    destruct T as [|t T]; [simpl; lia|].
    cbn [combine fold_left fst snd positional_matches filter].
    rewrite IH. destruct (list_eq_dec ascii_dec u t); cbn [length]; lia. }
  apply (G 0).
Qed.

Lemma matches_le (U T : list jsstring) :
  length (filter (fun b : bool => b) (positional_matches U T)) <= length T.
Proof.
  eapply Nat.le_trans; [apply filter_length_le|].
  rewrite positional_matches_length. lia.
Qed.

Lemma matches_all (U T : list jsstring) :
  length (filter (fun b : bool => b) (positional_matches U T)) = length T
  <-> firstn (length T) U = T.
Proof.
  revert T. induction U as [|u U IH]; intros T.
  - destruct T as [|t T]; cbn; [tauto|]. split; discriminate.
  - destruct T as [|t T]; [cbn; tauto|].
    cbn [positional_matches filter length firstn].
    pose proof (matches_le U T) as B.
    destruct (list_eq_dec ascii_dec u t) as [E|E].
    + cbn [length]. rewrite <- E. split.
      * intros H. f_equal. apply IH. lia.
      * intros [= H]. f_equal. apply IH. exact H.
    + split; [lia|]. intros [= H _]. contradiction.
Qed.

End WordOrderFacts.

(** X30.  [checkWordOrder] gives a share between 0 and 1; it is 0 for an
    empty target, and for a target with words it is 1 exactly when the
    user's words begin with the target's words. *)
Theorem checkWordOrder_share (userWords targetWords : list jsstring) :
  (0 <= checkWordOrder userWords targetWords <= 1)%Q
  /\ (targetWords = [] -> checkWordOrder userWords targetWords = 0%Q)
  /\ (targetWords <> [] ->
      ((checkWordOrder userWords targetWords == 1)%Q
       <-> firstn (length targetWords) userWords = targetWords)).
Proof.
  unfold checkWordOrder. rewrite word_order_count.
  pose proof (matches_le userWords targetWords) as B.
  pose proof (matches_all userWords targetWords) as M.
  set (c := length (filter (fun b : bool => b)
                      (positional_matches userWords targetWords))) in *.
  destruct (Nat.ltb_spec 0 (length targetWords)) as [L|L].
  - pose proof (num_pos L) as P.
    assert (K : (num c / num (length targetWords) * num (length targetWords)
                 == num c)%Q) by (field; lra).
    pose proof (num_nonneg c) as C0.
    pose proof (num_le B) as C1.
    split; [split|split].
    + apply Qle_shift_div_l; [exact P|]. lra.
    + apply Qle_shift_div_r; [exact P|]. lra.
    + intros E. rewrite E in L. cbn in L. lia.
    + intros _. rewrite <- M. split.
      * intros E. rewrite E in K.
        assert (E' : (num c == num (length targetWords))%Q) by lra.
        unfold num in E'. rewrite inject_Z_injective in E'. lia.
      * intros E. rewrite E. field. lra.
  - split; [lra|]. split; [reflexivity|].
    intros N. destruct targetWords; [congruence|cbn [length] in L; lia].
Qed.

Lemma checkWordOrder_share_witness :
  (checkWordOrder [txt "the"; txt "fox"; txt "ran"] [txt "the"; txt "fox"] == 1)%Q
  <-> firstn 2 [txt "the"; txt "fox"; txt "ran"] = [txt "the"; txt "fox"].
Proof.
  apply (proj2 (proj2 (@checkWordOrder_share
                         [txt "the"; txt "fox"; txt "ran"] [txt "the"; txt "fox"]))).
  discriminate.
Defined.
